(** * Author network force layout: a model of [script.js] and its properties

    The script loads [authors_network.json], derives per-node degrees and
    per-country counts, encodes them as radius and colour, renders circles
    and lines, and wires pointer, slider and resize events to a d3 force
    simulation.

    Conventions of the model.
    - JavaScript numbers that hold counts are [nat]; viewport sizes
      ([clientWidth], [clientHeight]) are [Z]; coordinates, radii and
      simulation parameters are real numbers [R] (rounding is not
      modelled, and a value that is [NaN] in JavaScript is [None]).
    - [undefined] for an optional field is [None].
    - Mutated objects are threaded as explicit state.
    - d3 itself is not part of the repository; the few d3 functions the
      script calls are modelled in [Module D3], each with the behaviour
      the script relies on.
    - The hover listeners (dimming) and the coordinates of the link lines
      are left out: no property below reads them. *)

From Stdlib Require Import Reals Lra ZArith List Permutation Sorted.
From Stdlib Require DecimalFacts DecimalNat.
From Stdlib Require Import DecimalString.
From stdpp Require Import base option list gmap strings.


(** ** JavaScript values used by the script *)

Module JS.

(** A JSON scalar used as node identifier and as link endpoint.  Map keys
    are compared by SameValueZero: the string ["1"] and the number [1]
    are different keys. *)
Inductive key :=
| KStr (s : string)
| KNum (n : Z).

#[export] Instance key_eq_dec : EqDecision key.
Proof. solve_decision. Defined.

(** Errors a script can throw. *)
Inductive error :=
| ReferenceError (ident : string)
| TypeError (msg : string)
| SyntaxError (msg : string)
| Error (msg : string).

(** Completion of a function body: normal, or an exception. *)
Inductive completion (A : Type) :=
| Normal (a : A)
| Throw (e : error).
Arguments Normal {A} a.
Arguments Throw {A} e.

(** [a || 0] for a numeric-or-undefined operand. *)
Definition or_zero (o : option nat) : nat :=
  match o with
  | Some (S n) => S n
  | Some O => 0
  | None => 0
  end.

(** [s || dflt] for a string-or-undefined operand: the empty string is
    falsy. *)
Definition or_string (o : option string) (dflt : string) : string :=
  match o with
  | Some EmptyString => dflt
  | Some s => s
  | None => dflt
  end.

(** Truthiness of a string-or-undefined operand. *)
Definition truthy (o : option string) : bool :=
  match o with
  | Some EmptyString => false
  | Some _ => true
  | None => false
  end.

(** [a ?? b]: only [undefined] (or [null]) selects the right operand. *)
Definition nullish (o : option string) (dflt : string) : string :=
  match o with
  | Some s => s
  | None => dflt
  end.

(** Template-literal conversion of a count and of a key. *)
Definition string_of_nat (n : nat) : string :=
  NilZero.string_of_uint (Nat.to_uint n).

Definition string_of_key (k : key) : string :=
  match k with
  | KStr s => s
  | KNum n => NilZero.string_of_int (Z.to_int n)
  end.

(** [parts.join(sep)] *)
Fixpoint join (sep : string) (parts : list string) : string :=
  match parts with
  | [] => EmptyString
  | [p] => p
  | p :: rest => String.append p (String.append sep (join sep rest))
  end.

(** [Array.prototype.sort(compare)].  ECMAScript requires the sort to be
    stable, which fixes its result for a consistent comparator; the model
    is a stable insertion sort.  [compare a b < 0] places [a] first. *)
Section Sort.
Context {A : Type} (compare : A → A → Z).

Fixpoint insert_sorted (a : A) (l : list A) : list A :=
  match l with
  | [] => [a]
  | b :: l' =>
      if (compare b a <=? 0)%Z then b :: insert_sorted a l'
      else a :: b :: l'
  end.

Definition sort (l : list A) : list A :=
  fold_left (λ acc a, insert_sorted a acc) l [].
End Sort.

(** [Math.max] and [Math.min] on numbers. *)
Definition Math_max (a b : R) : R := Rmax a b.
Definition Math_min (a b : R) : R := Rmin a b.

End JS.
Import JS.

(** ** The d3 functions the script calls *)

Module D3.

(** *** d3-array: [group], [rollup] (an insertion-ordered map) *)
Section Rollup.
Context {A K V : Type} `{EqDecision K}.

(** [Map.prototype.get] on an insertion-ordered map. *)
Fixpoint get {W : Type} (m : list (K * W)) (k : K) : option W :=
  match m with
  | [] => None
  | (k', w) :: m' => if decide (k = k') then Some w else get m' k
  end.

(** One step of grouping: push onto the key's group, or open a new
    group at the end of the map. *)
Fixpoint group_add (k : K) (a : A) (m : list (K * list A))
  : list (K * list A) :=
  match m with
  | [] => [(k, [a])]
  | (k', g) :: m' =>
      if decide (k = k') then (k', g ++ [a]) :: m'
      else (k', g) :: group_add k a m'
  end.

Definition group_from (m : list (K * list A)) (values : list A)
    (keyof : A → K) : list (K * list A) :=
  fold_left (λ m a, group_add (keyof a) a m) values m.

Definition group (values : list A) (keyof : A → K) : list (K * list A) :=
  group_from [] values keyof.

(** [d3.rollup(values, reduce, key)]. *)
Definition rollup (values : list A) (reduce : list A → V) (keyof : A → K)
  : list (K * V) :=
  (λ kg, (kg.1, reduce kg.2)) <$> group values keyof.

End Rollup.

(** Keys in order of first appearance. *)
Fixpoint first_seen {K : Type} `{EqDecision K} (l : list K) : list K :=
  match l with
  | [] => []
  | k :: l' => k :: filter (λ k', k' ≠ k) (first_seen l')
  end.

(** *** d3-array: [descending], [extent] *)

(** [d3.descending(a, b)] on numbers: [-1] when [b < a], [1] when
    [b > a], otherwise [0]. *)
Definition descending (a b : nat) : Z :=
  if (b <? a)%nat then (-1)%Z
  else if (a <? b)%nat then 1%Z
  else 0%Z.

(** [d3.extent(values, accessor)]: [Some (min, max)], or [None] for
    [[undefined, undefined]] when there is no value. *)
Definition extent {A : Type} (values : list A) (accessor : A → nat)
  : option (nat * nat) :=
  fold_left
    (λ acc a,
       let value := accessor a in
       match acc with
       | None => Some (value, value)
       | Some (lo, hi) =>
           Some (if (value <? lo)%nat then value else lo,
                 if (hi <? value)%nat then value else hi)
       end)
    values None.

(** *** d3-scale: the square-root scale *)

(** Modelled from the spec: [d3.scaleSqrt] belongs to the d3 library,
    which is not part of the repository.  Section 4.2: a square-root
    scale mapping [min, max] to the range, which on a domain with
    [min = max] does not divide and returns the midpoint of the range.
    The definitions follow d3-scale's continuous scale: the domain and
    the input are transformed by the square root, normalised (a constant
    one half on a domain of width zero) and interpolated linearly over
    the range.  An undefined domain gives [NaN], here [None]. *)
Definition transformSqrt (x : R) : R :=
  if Rlt_dec x 0 then (- sqrt (- x))%R else sqrt x.

Definition normalize (a b : R) : R → R :=
  if Req_dec_T (b - a) 0 then λ _, (1 / 2)%R
  else λ x, ((x - a) / (b - a))%R.

Definition interpolateNumber (a b : R) : R → R :=
  λ t, (a * (1 - t) + b * t)%R.

Definition bimap (domain range : R * R) : R → R :=
  let '(d0, d1) := domain in
  let '(r0, r1) := range in
  if Rlt_dec d1 d0
  then λ x, interpolateNumber r1 r0 (normalize d1 d0 x)
  else λ x, interpolateNumber r0 r1 (normalize d0 d1 x).

Definition scaleSqrt (domain : option (nat * nat)) (range : R * R)
  : nat → option R :=
  match domain with
  | None => λ _, None
  | Some (d0, d1) =>
      λ x, Some (bimap (transformSqrt (INR d0), transformSqrt (INR d1))
                   range (transformSqrt (INR x)))
  end.

(** *** d3-scale: the ordinal scale *)

(** An ordinal scale is mutable: calling it on a value outside its domain
    appends the value to the domain. *)
Record ordinal := {
  ordinal_domain : list string;
  ordinal_range : list string
}.

Fixpoint index_of (d : string) (l : list string) : option nat :=
  match l with
  | [] => None
  | d' :: l' => if decide (d = d') then Some 0%nat else S <$> index_of d l'
  end.

(** [d3.scaleOrdinal().domain(domain).range(range)]; the domain setter
    skips values it has already seen. *)
Definition scaleOrdinal (domain range : list string) : ordinal :=
  {| ordinal_domain := first_seen domain; ordinal_range := range |}.

(** [scale(d)]: the colour and the scale after the call. *)
Definition call (scale : ordinal) (d : string) : option string * ordinal :=
  let range := ordinal_range scale in
  match index_of d (ordinal_domain scale) with
  | Some i => (range !! (i mod length range)%nat, scale)
  | None =>
      let i := length (ordinal_domain scale) in
      (range !! (i mod length range)%nat,
       {| ordinal_domain := ordinal_domain scale ++ [d];
          ordinal_range := range |})
  end.

(** [d3.schemeTableau10] (d3-scale-chromatic). *)
Definition schemeTableau10 : list string :=
  ["#4e79a7"; "#f28e2c"; "#e15759"; "#76b7b2"; "#59a14f";
   "#edc949"; "#af7aa1"; "#ff9da7"; "#9c755f"; "#bab0ab"].

End D3.

(** ** Input data *)

Module RawNode.
Record t := mk {
  id : key;
  name : option string;
  affiliation : option string;
  country : option string
}.
End RawNode.

Module Link.
Record t := mk {
  source : key;
  target : key;
  weight : option R
}.
End Link.

Record document := {
  raw_nodes : list RawNode.t;
  raw_links : list Link.t
}.

(** A node of the session: the copied input fields and the derived
    [degree]. *)
Module Node.
Record t := mk {
  id : key;
  name : option string;
  affiliation : option string;
  country : option string;
  degree : nat
}.
End Node.

(** ** Statistics deriver (script.js, lines 13-34) *)

(** [links.flatMap(l => [l.source, l.target])] *)
Definition endpoints (links : list Link.t) : list key :=
  flat_map (λ l, [Link.source l; Link.target l]) links.

(** [const degree = d3.rollup(endpoints, v => v.length, d => d)] *)
Definition degree (links : list Link.t) : list (key * nat) :=
  D3.rollup (endpoints links) (λ v, length v) (λ d, d).

(** [raw.nodes.map(d => ({...d}))] followed by
    [nodes.forEach(n => n.degree = degree.get(n.id) || 0)]. *)
Definition with_degree (links : list Link.t) (d : RawNode.t) : Node.t :=
  Node.mk (RawNode.id d) (RawNode.name d) (RawNode.affiliation d)
    (RawNode.country d)
    (or_zero (D3.get (degree links) (RawNode.id d))).

Definition nodes (raw : document) : list Node.t :=
  with_degree (raw_links raw) <$> raw_nodes raw.

(** A row of [sortedCountries]: [{ country: k, n: v }]. *)
Module Row.
Record t := mk {
  country : string;
  n : nat
}.
End Row.

(** [d3.rollup(nodes, v => v.length, d => d.country || 'Unknown')] *)
Definition byCountry (ns : list Node.t) : list (string * nat) :=
  D3.rollup ns (λ v, length v) (λ d, or_string (Node.country d) "Unknown").

(** [Array.from(byCountry, ([k, v]) => ({ country: k, n: v }))
      .sort((a, b) => d3.descending(a.n, b.n))] *)
Definition sortedCountries (ns : list Node.t) : list Row.t :=
  sort (λ a b, D3.descending (Row.n a) (Row.n b))
    ((λ kv, Row.mk kv.1 kv.2) <$> byCountry ns).

(** [sortedCountries.slice(0, 10).map(d => d.country)] *)
Definition top10_countries (ns : list Node.t) : list string :=
  Row.country <$> take 10 (sortedCountries ns).

(** [const top10 = new Set(...)] *)
Definition top10 (ns : list Node.t) : gset string :=
  list_to_set (top10_countries ns).

(** ** Visual encoder (script.js, lines 6-7, 36-43, 73, 79-80) *)

Definition RADIUS_RANGE : R * R := (3%R, 12%R).
Definition FALLBACK_GRAY : string := "#A9A9A9".

(** [const color = d3.scaleOrdinal().domain(...).range(d3.schemeTableau10)] *)
Definition color (ns : list Node.t) : D3.ordinal :=
  D3.scaleOrdinal (top10_countries ns) D3.schemeTableau10.

(** [const size = d3.scaleSqrt().domain(d3.extent(nodes, d => d.degree))
      .range(RADIUS_RANGE)] *)
Definition size (ns : list Node.t) : nat → option R :=
  D3.scaleSqrt (D3.extent ns Node.degree) RADIUS_RANGE.

(** [d => top10.has(d.country) ? color(d.country) : FALLBACK_GRAY],
    with the scale threaded.  [top10.has(undefined)] is false. *)
Definition fill (top : gset string) (scale : D3.ordinal) (d : Node.t)
  : option string * D3.ordinal :=
  match Node.country d with
  | Some c =>
      if bool_decide (c ∈ top) then D3.call scale c
      else (Some FALLBACK_GRAY, scale)
  | None => (Some FALLBACK_GRAY, scale)
  end.

(** The fills of all circles, in node order. *)
Fixpoint fills (top : gset string) (scale : D3.ordinal) (ds : list Node.t)
  : list (option string) * D3.ordinal :=
  match ds with
  | [] => ([], scale)
  | d :: ds' =>
      let '(f, scale1) := fill top scale d in
      let '(fs, scale2) := fills top scale1 ds' in
      (f :: fs, scale2)
  end.

(** [d => Math.max(0.5, (d.weight || 1) * 0.6)] *)
Definition stroke_width (l : Link.t) : R :=
  let w := match Link.weight l with
           | Some w => if Req_dec_T w 0 then 1%R else w
           | None => 1%R
           end in
  Math_max (1 / 2) (w * (6 / 10)).

(** ** The page *)

(** What the script reads from the document: the size of [#chart] and the
    values of the three range inputs. *)
Module Dom.
Record t := mk {
  clientWidth : Z;
  clientHeight : Z;
  charge : R;
  collide : R;
  linkStrength : R
}.
End Dom.

(** [const WIDTH = () => document.getElementById('chart').clientWidth] *)
Definition WIDTH (dom : Dom.t) : Z := Dom.clientWidth dom.
(** [const HEIGHT = () => document.getElementById('chart').clientHeight] *)
Definition HEIGHT (dom : Dom.t) : Z := Dom.clientHeight dom.

(** Elements on an event path. *)
Inductive element :=
| Window
| Document
| Html
| Body
| Chart
| NodesG
| CircleEl (i : nat)
| TooltipEl.

#[export] Instance element_eq_dec : EqDecision element.
Proof. solve_decision. Defined.

(** A pointer event object.  [dispatch] is the event's dispatch flag:
    once dispatch is over the event's path is cleared and
    [composedPath()] is the empty array. *)
Module Event.
Record t := mk {
  path : list element;
  dispatch : bool;
  offsetX : R;
  offsetY : R
}.

Definition composedPath (ev : t) : list element :=
  if dispatch ev then path ev else [].

Definition finished (ev : t) : t :=
  mk (path ev) false (offsetX ev) (offsetY ev).
End Event.

Module Circle.
Record t := mk {
  r : option R;
  fill : option string;
  cx : option R;
  cy : option R
}.
End Circle.

Module Tooltip.
Record t := mk {
  html : string;
  left : R;
  top : R;
  hidden : bool
}.
End Tooltip.

Module LegendItem.
Record t := mk {
  swatch : option string;
  text : string
}.
End LegendItem.

(** What the script writes: slider labels, the chart, the tooltip, the
    body's [click.tooltip] listener (with the event its closure captured)
    and the legend. *)
Module View.
Record t := mk {
  labels : option (R * R * R);
  viewBox : option (Z * Z * Z * Z);
  lines : list R;
  circles : list Circle.t;
  tooltip : Tooltip.t;
  click_tooltip : option Event.t;
  legend : option (string * list LegendItem.t)
}.

Definition set_labels (l : R * R * R) (v : t) : t :=
  mk (Some l) (viewBox v) (lines v) (circles v) (tooltip v)
     (click_tooltip v) (legend v).
Definition set_viewBox (b : Z * Z * Z * Z) (v : t) : t :=
  mk (labels v) (Some b) (lines v) (circles v) (tooltip v)
     (click_tooltip v) (legend v).
Definition set_chart (ls : list R) (cs : list Circle.t) (v : t) : t :=
  mk (labels v) (viewBox v) ls cs (tooltip v) (click_tooltip v) (legend v).
Definition set_circles (cs : list Circle.t) (v : t) : t :=
  mk (labels v) (viewBox v) (lines v) cs (tooltip v) (click_tooltip v)
     (legend v).
Definition set_tooltip (tt : Tooltip.t) (v : t) : t :=
  mk (labels v) (viewBox v) (lines v) (circles v) tt (click_tooltip v)
     (legend v).
Definition set_click_tooltip (l : option Event.t) (v : t) : t :=
  mk (labels v) (viewBox v) (lines v) (circles v) (tooltip v) l (legend v).
Definition set_legend (h : string) (items : list LegendItem.t) (v : t) : t :=
  mk (labels v) (viewBox v) (lines v) (circles v) (tooltip v)
     (click_tooltip v) (Some (h, items)).
End View.

(** ** The force simulation as the script drives it *)

(** The forces the script installs, by the parameter it supplies.  The
    collision radius is [d => size(d.degree) * multiplier]. *)
Module Force.
Inductive t :=
| Link (strength : R)
| ManyBody (strength : R)
| Center (x y : R)
| Collide (multiplier : R).

(** [force.strength(v)] on the link force. *)
Definition strength (v : R) (f : t) : t :=
  match f with
  | Link _ => Link v
  | other => other
  end.
End Force.

(** The fields d3-force keeps on each node object, in a list aligned with
    [nodes].  [fx], [fy] are the pinned position ([None] is [null]). *)
Module Body.
Record t := mk {
  x : R;
  y : R;
  vx : R;
  vy : R;
  fx : option R;
  fy : option R
}.
End Body.

Module Sim.
Record t := mk {
  alpha : R;
  alphaTarget : R;
  running : bool;
  forces : gmap string Force.t;
  bodies : list Body.t
}.

(** [sim.alpha(a)] *)
Definition set_alpha (a : R) (s : t) : t :=
  mk a (alphaTarget s) (running s) (forces s) (bodies s).
(** [sim.alphaTarget(a)] *)
Definition set_alphaTarget (a : R) (s : t) : t :=
  mk (alpha s) a (running s) (forces s) (bodies s).
(** [sim.restart()] *)
Definition restart (s : t) : t :=
  mk (alpha s) (alphaTarget s) true (forces s) (bodies s).
(** [sim.force(name, f)] *)
Definition force (name : string) (f : Force.t) (s : t) : t :=
  mk (alpha s) (alphaTarget s) (running s) (<[name := f]> (forces s))
     (bodies s).
(** [sim.force(name).strength(v)] *)
Definition force_strength (name : string) (v : R) (s : t) : t :=
  mk (alpha s) (alphaTarget s) (running s)
     (alter (Force.strength v) name (forces s)) (bodies s).
Definition set_bodies (bs : list Body.t) (s : t) : t :=
  mk (alpha s) (alphaTarget s) (running s) (forces s) bs.

(** The position update at the end of each d3-force step: a pinned
    coordinate is taken over, a free one moves by its decayed
    velocity. *)
Definition velocityDecay : R := (6 / 10)%R.

Definition integrate_body (b : Body.t) : Body.t :=
  let '(x', vx') := match Body.fx b with
                    | Some f => (f, 0%R)
                    | None => let v := (Body.vx b * velocityDecay)%R in
                              ((Body.x b + v)%R, v)
                    end in
  let '(y', vy') := match Body.fy b with
                    | Some f => (f, 0%R)
                    | None => let v := (Body.vy b * velocityDecay)%R in
                              ((Body.y b + v)%R, v)
                    end in
  Body.mk x' y' vx' vy' (Body.fx b) (Body.fy b).

Definition integrate (s : t) : t :=
  set_bodies (integrate_body <$> bodies s) s.

(** The position d3-force gives the [i]-th node when it has none. *)
Definition initial_body (i : nat) : Body.t :=
  let radius := (10 * sqrt (1 / 2 + INR i))%R in
  let angle := (INR i * (PI * (3 - sqrt 5)))%R in
  Body.mk (radius * cos angle) (radius * sin angle) 0 0 None None.
End Sim.

(** [createSimulation()], lines 127-135: the four forces with the slider
    values, on freshly placed nodes, started.  The link force resolves
    every endpoint to a node by [id] and throws on the first one it
    cannot find. *)
Definition createSimulation (ns : list Node.t) (links : list Link.t)
    (dom : Dom.t) : completion Sim.t :=
  match list_find (λ e, e ∉ (Node.id <$> ns)) (endpoints links) with
  | Some (_, e) =>
      Throw (Error (String.append "node not found: " (string_of_key e)))
  | None =>
      Normal
        (Sim.mk 1 0 true
           (<["collide" := Force.Collide (Dom.collide dom)]>
              (<["center" := Force.Center (IZR (WIDTH dom) / 2)
                                          (IZR (HEIGHT dom) / 2)]>
                 (<["charge" := Force.ManyBody (Dom.charge dom)]>
                    (<["link" := Force.Link (Dom.linkStrength dom)]> ∅))))
           (imap (λ i _, Sim.initial_body i) ns))
  end.

(** The tick listener, lines 144-146: every node is clamped into the
    viewport, in place, and its circle is moved there. *)
Definition clamp (limit : Z) (x : R) : R :=
  Math_max 6 (Math_min (IZR limit - 6) x).

Definition clamp_body (dom : Dom.t) (b : Body.t) : Body.t :=
  Body.mk (clamp (WIDTH dom) (Body.x b)) (clamp (HEIGHT dom) (Body.y b))
    (Body.vx b) (Body.vy b) (Body.fx b) (Body.fy b).

Definition move_circle (c : Circle.t) (b : Body.t) : Circle.t :=
  Circle.mk (Circle.r c) (Circle.fill c) (Some (Body.x b)) (Some (Body.y b)).

Definition ticked (dom : Dom.t) (s : Sim.t) (v : View.t) : Sim.t * View.t :=
  let bs := clamp_body dom <$> Sim.bodies s in
  (Sim.set_bodies bs s,
   View.set_circles (zip_with move_circle (View.circles v) bs) v).

(** One step of the running simulation: the forces of d3-force (any
    function [forces]), its position update, then the tick listener. *)
Definition tick (forces : Sim.t → Sim.t) (dom : Dom.t) (s : Sim.t)
    (v : View.t) : Sim.t * View.t :=
  ticked dom (Sim.integrate (forces s)) v.

(** ** Drag (script.js, lines 155-174) *)

Module DragEvent.
Record t := mk {
  active : nat;
  x : R;
  y : R
}.
End DragEvent.

Definition pin (fx fy : option R) (d : Body.t) : Body.t :=
  Body.mk (Body.x d) (Body.y d) (Body.vx d) (Body.vy d) fx fy.

(** The handlers act on the node [d] bound to the dragged circle, here
    the [i]-th node. *)
Definition dragstarted (event : DragEvent.t) (i : nat) (sim : Sim.t) : Sim.t :=
  let sim := if (DragEvent.active event =? 0)%nat
             then Sim.restart (Sim.set_alphaTarget (3 / 10) sim)
             else sim in
  Sim.set_bodies
    (alter (λ d, pin (Some (Body.x d)) (Some (Body.y d)) d) i (Sim.bodies sim))
    sim.

Definition dragged (event : DragEvent.t) (i : nat) (sim : Sim.t) : Sim.t :=
  Sim.set_bodies
    (alter (pin (Some (DragEvent.x event)) (Some (DragEvent.y event))) i
       (Sim.bodies sim))
    sim.

Definition dragended (event : DragEvent.t) (i : nat) (sim : Sim.t) : Sim.t :=
  let sim := if (DragEvent.active event =? 0)%nat
             then Sim.set_alphaTarget 0 sim
             else sim in
  Sim.set_bodies (alter (pin None None) i (Sim.bodies sim)) sim.

(** The gestures d3-drag reports to the three handlers.  The behaviour
    counts the gestures in progress: [event.active] is the count before a
    start, and the count of the others that remain at an end.  A move or
    an end without a gesture in progress is not reported. *)
Inductive gesture :=
| PointerDown (i : nat) (x y : R)
| PointerMove (i : nat) (x y : R)
| PointerUp (i : nat) (x y : R).

Definition drag (g : gesture) (st : nat * Sim.t) : nat * Sim.t :=
  let '(active, sim) := st in
  match g, active with
  | PointerDown i x y, _ =>
      (S active, dragstarted (DragEvent.mk active x y) i sim)
  | PointerMove i x y, S _ =>
      (active, dragged (DragEvent.mk active x y) i sim)
  | PointerUp i x y, S rest =>
      (rest, dragended (DragEvent.mk rest x y) i sim)
  | _, O => st
  end.


(** ** Sliders and resize (script.js, lines 54-58, 179-204) *)

Definition updateSliderLabels (dom : Dom.t) (v : View.t) : View.t :=
  View.set_labels (Dom.charge dom, Dom.collide dom, Dom.linkStrength dom) v.

Definition set_label (which : nat) (value : R) (v : View.t) : View.t :=
  match View.labels v with
  | Some (a, b, c) =>
      View.set_labels
        (match which with
         | 0 => (value, b, c)
         | 1 => (a, value, c)
         | _ => (a, b, value)
         end) v
  | None => v
  end.

Definition on_charge_input (dom : Dom.t) (st : Sim.t * View.t)
  : Sim.t * View.t :=
  (Sim.restart (Sim.set_alpha (6 / 10)
     (Sim.force "charge" (Force.ManyBody (Dom.charge dom)) st.1)),
   set_label 0 (Dom.charge dom) st.2).

Definition on_collide_input (dom : Dom.t) (st : Sim.t * View.t)
  : Sim.t * View.t :=
  (Sim.restart (Sim.set_alpha (6 / 10)
     (Sim.force "collide" (Force.Collide (Dom.collide dom)) st.1)),
   set_label 1 (Dom.collide dom) st.2).

Definition on_linkStrength_input (dom : Dom.t) (st : Sim.t * View.t)
  : Sim.t * View.t :=
  (Sim.restart (Sim.set_alpha (6 / 10)
     (Sim.force_strength "link" (Dom.linkStrength dom) st.1)),
   set_label 2 (Dom.linkStrength dom) st.2).

(** The [resize] listener of the window; [dom] is the document after the
    resize. *)
Definition on_resize (dom : Dom.t) (st : Sim.t * View.t) : Sim.t * View.t :=
  (Sim.restart (Sim.set_alpha (3 / 10)
     (Sim.force "center"
        (Force.Center (IZR (WIDTH dom) / 2) (IZR (HEIGHT dom) / 2)) st.1)),
   View.set_viewBox (0, 0, WIDTH dom, HEIGHT dom)%Z st.2).

(** ** Tooltip (script.js, lines 102-123) *)

(** Where a click lands, and the event path from there to the window.
    The tooltip is an overlay beside the chart, not an ancestor of it. *)
Inductive target :=
| OnCircle (i : nat)
| OnTooltip
| OnPage
| OffBody.

Definition path_of (t : target) : list element :=
  match t with
  | OnCircle i => [CircleEl i; NodesG; Chart; Body; Html; Document; Window]
  | OnTooltip => [TooltipEl; Body; Html; Document; Window]
  | OnPage => [Body; Html; Document; Window]
  | OffBody => [Html; Document; Window]
  end.

(** The tooltip text: [[...].filter(Boolean).join('<br/>')]. *)
Definition tooltip_lines (d : Node.t) : string :=
  join "<br/>"
    (filter (λ s, s ≠ EmptyString)
       [String.append "<strong>"
          (String.append (nullish (Node.name d) (string_of_key (Node.id d)))
             "</strong>");
        if truthy (Node.affiliation d)
        then nullish (Node.affiliation d) EmptyString else EmptyString;
        if truthy (Node.country d)
        then String.append "Country: " (nullish (Node.country d) EmptyString)
        else EmptyString;
        String.append "Degree: " (string_of_nat (Node.degree d))]).

(** The circle's click listener: show the tooltip near the pointer and put
    the [click.tooltip] listener on the body.  The listener's closure holds
    the click [event] itself. *)
Definition on_click (event : Event.t) (d : Node.t) (v : View.t) : View.t :=
  View.set_click_tooltip (Some event)
    (View.set_tooltip
       (Tooltip.mk (tooltip_lines d) (Event.offsetX event + 12)
          (Event.offsetY event + 12) false)
       v).

(** The body's [click.tooltip] listener, lines 117-122.  Its parameter is
    [e]; the test reads the captured [event]. *)
Definition click_tooltip_listener (event e : Event.t) (v : View.t) : View.t :=
  if bool_decide (TooltipEl ∈ Event.composedPath event) then v
  else
    let tt := View.tooltip v in
    View.set_click_tooltip None
      (View.set_tooltip
         (Tooltip.mk (Tooltip.html tt) (Tooltip.left tt) (Tooltip.top tt) true)
         v).

(** Dispatch of one click.  Capturing phase: the body's listener, if any
    and if the body is on the path, is taken off the body ([once]) and
    run.  At the target: the circle's listener.  When dispatch is over the
    event object's path is cleared, also as seen from a closure that holds
    the event. *)
Definition capturing (e : Event.t) (v : View.t) : View.t :=
  match View.click_tooltip v with
  | Some event =>
      if bool_decide (Body ∈ Event.path e)
      then click_tooltip_listener event e (View.set_click_tooltip None v)
      else v
  | None => v
  end.

Definition at_target (t : target) (e : Event.t) (ns : list Node.t)
    (v : View.t) : View.t :=
  match t with
  | OnCircle i =>
      match ns !! i with
      | Some d => on_click e d v
      | None => v
      end
  | _ => v
  end.

Definition dispatched (v : View.t) : View.t :=
  View.set_click_tooltip (Event.finished <$> View.click_tooltip v) v.

Definition click (t : target) (offsetX offsetY : R) (ns : list Node.t)
    (v : View.t) : View.t :=
  let e := Event.mk (path_of t) true offsetX offsetY in
  dispatched (at_target t e ns (capturing e v)).

(** A sequence of clicks, each with its target and pointer offsets. *)
Definition clicks (ts : list (target * (R * R))) (ns : list Node.t)
    (v : View.t) : View.t :=
  fold_left (λ v t, click t.1 t.2.1 t.2.2 ns v) ts v.

(** ** Hover (script.js, lines 86-101) *)

(** The [dim] class of the circles and of the lines, in node and in link
    order. *)
Module Dim.
Record t := mk {
  circles : list bool;
  lines : list bool
}.
End Dim.

(** [id => nodes.find(n => n.id === (id.id ?? id))?.country]: an endpoint
    is an id, or the node object the link force put in its place, and
    either way stands for the same id. *)
Definition idToCountry (ns : list Node.t) (id : key) : option string :=
  match list_find (λ n, Node.id n = id) ns with
  | Some (_, n) => Node.country n
  | None => None
  end.

(** The [mouseover] listener of the circle bound to [d]. *)
Definition on_mouseover (ns : list Node.t) (links : list Link.t)
    (d : Node.t) : Dim.t :=
  Dim.mk
    ((λ n, bool_decide (Node.country n ≠ Node.country d)) <$> ns)
    ((λ l,
        let c1 := idToCountry ns (Link.source l) in
        let c2 := idToCountry ns (Link.target l) in
        negb (bool_decide (c1 = Node.country d)
              && bool_decide (c2 = Node.country d))) <$> links).

(** The [mouseleave] listener. *)
Definition on_mouseleave (ns : list Node.t) (links : list Link.t) : Dim.t :=
  Dim.mk ((λ _, false) <$> ns) ((λ _, false) <$> links).

(** ** The load callback and the script (script.js, lines 10-220) *)

(** The legend rows: [color(row.country)] and [`${row.country} (${row.n})`],
    with the scale threaded. *)
Fixpoint legend_items (scale : D3.ordinal) (rows : list Row.t)
  : list LegendItem.t * D3.ordinal :=
  match rows with
  | [] => ([], scale)
  | row :: rows' =>
      let '(c, scale1) := D3.call scale (Row.country row) in
      let '(items, scale2) := legend_items scale1 rows' in
      (LegendItem.mk c
         (String.append (Row.country row)
            (String.append " ("
               (String.append (string_of_nat (Row.n row)) ")")))
       :: items, scale2)
  end.

(** The body of the callback with [raw] bound: the page as far as the body
    got, and the simulation or the exception that ended it. *)
Definition body (raw : document) (dom : Dom.t) (v : View.t)
  : View.t * completion Sim.t :=
  let ns := nodes raw in
  let links := raw_links raw in
  let v := updateSliderLabels dom v in
  let v := View.set_viewBox (0, 0, WIDTH dom, HEIGHT dom)%Z
             (View.set_chart [] [] v) in
  let '(fs, scale) := fills (top10 ns) (color ns) ns in
  let v := View.set_chart (stroke_width <$> links)
             (zip_with
                (λ d f, Circle.mk (size ns (Node.degree d)) f None None)
                ns fs) v in
  match createSimulation ns links dom with
  | Throw e => (v, Throw e)
  | Normal sim =>
      (View.set_legend "Top 10 Countries"
         (legend_items scale (take 10 (sortedCountries ns))).1 v,
       Normal sim)
  end.

(** What an identifier of the script can be bound to. *)
Inductive binding :=
| BDocument (raw : document)
| BOther.

(** [graph => { ... raw.nodes ... raw.links ... }]: the parameter is
    [graph]; [raw] is resolved in the enclosing scope. *)
Definition callback (outer : gmap string binding) (graph : document)
    (dom : Dom.t) (v : View.t) : View.t * completion Sim.t :=
  let scope := <["graph" := BDocument graph]> outer in
  match scope !! "raw" with
  | None => (v, Throw (ReferenceError "raw"))
  | Some (BDocument raw) => body raw dom v
  | Some BOther =>
      (v, Throw (TypeError "Cannot read properties of undefined"))
  end.

(** The names bound where the callback is written: the script's four
    constants and the globals it uses. *)
Definition script_scope : gmap string binding :=
  list_to_map
    ((λ name, (name, BOther)) <$>
       ["WIDTH"; "HEIGHT"; "RADIUS_RANGE"; "FALLBACK_GRAY";
        "d3"; "document"; "window"; "Math"; "Array"; "Set"; "Boolean"]).

(** How the promise of [d3.json] settles. *)
Inductive settled :=
| Fulfilled (graph : document)
| Rejected (reason : error).

(** [d3.json("authors_network.json").then(callback)]: the page afterwards,
    and the reason of the resulting promise when it is rejected; no
    rejection handler is attached anywhere. *)
Definition main (outer : gmap string binding) (response : settled)
    (dom : Dom.t) (v : View.t) : View.t * option error :=
  match response with
  | Fulfilled graph =>
      match callback outer graph dom v with
      | (v', Normal _) => (v', None)
      | (v', Throw e) => (v', Some e)
      end
  | Rejected reason => (v, Some reason)
  end.

(** ** Vocabulary of the properties *)

(** A rendered circle lies in the viewport with the 6px margin. *)
Definition within_margin (dom : Dom.t) (c : Circle.t) : Prop :=
  match Circle.cx c, Circle.cy c with
  | Some x, Some y =>
      (6 <= x <= IZR (WIDTH dom) - 6)%R ∧ (6 <= y <= IZR (HEIGHT dom) - 6)%R
  | _, _ => False
  end.

(** Reading a decimal literal back as a number. *)
Definition parse_nat (s : string) : option nat :=
  Nat.of_uint <$> NilZero.uint_of_string s.

(** The page shows the user something it did not show before. *)
Definition surfaced (before after : View.t) : Prop := after ≠ before.

(** The events of a session after the load, and their handlers; the state
    is the number of drag gestures in progress, the simulation and the
    page. *)
Inductive ui_event :=
| Gesture (g : gesture)
| ChargeInput (dom : Dom.t)
| CollideInput (dom : Dom.t)
| LinkStrengthInput (dom : Dom.t)
| Resize (dom : Dom.t).

Definition handle (st : nat * Sim.t * View.t) (e : ui_event)
  : nat * Sim.t * View.t :=
  let '(active, sim, v) := st in
  match e with
  | Gesture g => (drag g (active, sim), v)
  | ChargeInput dom =>
      (active, (on_charge_input dom (sim, v)).1,
       (on_charge_input dom (sim, v)).2)
  | CollideInput dom =>
      (active, (on_collide_input dom (sim, v)).1,
       (on_collide_input dom (sim, v)).2)
  | LinkStrengthInput dom =>
      (active, (on_linkStrength_input dom (sim, v)).1,
       (on_linkStrength_input dom (sim, v)).2)
  | Resize dom =>
      (active, (on_resize dom (sim, v)).1, (on_resize dom (sim, v)).2)
  end.

Definition handle_all (es : list ui_event) (st : nat * Sim.t * View.t)
  : nat * Sim.t * View.t :=
  fold_left handle es st.

(** The energy target tracks the gestures in progress. *)
Definition energy_follows_drag (st : nat * Sim.t * View.t) : Prop :=
  Sim.alphaTarget st.1.2 =
    if (st.1.1 =? 0)%nat then 0%R else (3 / 10)%R.

(** The tooltip is visible exactly while its dismiss listener is on the
    body, and the click that listener remembers has been dispatched. *)
Definition tooltip_consistent (v : View.t) : Prop :=
  match View.click_tooltip v with
  | Some event =>
      Tooltip.hidden (View.tooltip v) = false ∧ Event.dispatch event = false
  | None => Tooltip.hidden (View.tooltip v) = true
  end.

(** The three labels show the parameters of the installed forces, and the
    four forces are installed. *)
Definition labels_match (sim : Sim.t) (v : View.t) : Prop :=
  ∃ charge collide linkStrength x y,
    View.labels v = Some (charge, collide, linkStrength)
    ∧ Sim.forces sim !! "charge" = Some (Force.ManyBody charge)
    ∧ Sim.forces sim !! "collide" = Some (Force.Collide collide)
    ∧ Sim.forces sim !! "link" = Some (Force.Link linkStrength)
    ∧ Sim.forces sim !! "center" = Some (Force.Center x y).

(** ** Sample inputs *)

Module Sample.
(** The page before the script runs. *)
Definition page : View.t :=
  View.mk None None [] [] (Tooltip.mk EmptyString 0 0 true) None None.

Definition dom : Dom.t := Dom.mk 800 600 (-30) 1 (1 / 2).

(** A chart area ten pixels wide and high. *)
Definition narrow : Dom.t := Dom.mk 10 10 (-30) 1 (1 / 2).

Definition author (id : string) (country : option string) : RawNode.t :=
  RawNode.mk (KStr id) None None country.

Definition coauthor (a b : string) : Link.t :=
  Link.mk (KStr a) (KStr b) None.

(** Three authors; [a] has a link to itself and one to [b]. *)
Definition loop : document :=
  {| raw_nodes := [author "a" (Some "FR"); author "b" (Some "DE");
                   author "c" (Some "FR")];
     raw_links := [coauthor "a" "a"; coauthor "a" "b"] |}.

(** Two authors without a country, no links. *)
Definition anonymous : document :=
  {| raw_nodes := [author "a" None; author "b" None];
     raw_links := [] |}.

(** Five authors; Germany and France tie with two each, Germany first. *)
Definition tied : document :=
  {| raw_nodes := [author "a" (Some "DE"); author "b" (Some "FR");
                   author "c" (Some "IT"); author "d" (Some "FR");
                   author "e" (Some "DE")];
     raw_links := [] |}.


(** Eleven authors from eleven countries. *)
Definition eleven : document :=
  {| raw_nodes := (λ c, author c (Some c)) <$>
       ["AT"; "BE"; "CH"; "DE"; "ES"; "FR"; "GB"; "IT"; "NL"; "PL"; "SE"];
     raw_links := [] |}.

(** One body at the origin, and its circle. *)
Definition at_origin : Sim.t :=
  Sim.mk 1 0 true ∅ [Body.mk 0 0 0 0 None None].

Definition one_circle : View.t :=
  View.set_circles [Circle.mk (Some 3%R) (Some FALLBACK_GRAY) None None] page.
End Sample.

(** * Properties *)

Section RollupFacts.
Context {A K : Type} `{EqDecision K}.
Implicit Types (m : list (K * list A)) (values : list A) (keyof : A → K).

Lemma get_group_add_eq m k a :
  D3.get (D3.group_add k a m) k =
    Some (default [] (D3.get m k) ++ [a]).
Proof.
  induction m as [|[k' g] m IH]; simpl.
  - by rewrite decide_True.
  - destruct (decide (k = k')) as [->|Hne]; simpl.
    + by rewrite decide_True.
    + by rewrite decide_False.
Qed.

Lemma get_group_add_ne m k k' a :
  k' ≠ k → D3.get (D3.group_add k a m) k' = D3.get m k'.
Proof.
  intros Hne. induction m as [|[k0 g] m IH]; simpl.
  - by rewrite decide_False.
  - destruct (decide (k = k0)) as [->|Hk]; simpl;
      destruct (decide (k' = k0)); done.
Qed.

Lemma get_group_from m values keyof k :
  D3.get (D3.group_from m values keyof) k =
    match D3.get m k, filter (λ a, keyof a = k) values with
    | None, [] => None
    | o, g => Some (default [] o ++ g)
    end.
Proof.
  revert m. induction values as [|a values IH]; intros m; simpl.
  - destruct (D3.get m k); simpl; by rewrite ?app_nil_r.
  - unfold D3.group_from in *. simpl. rewrite IH.
    rewrite filter_cons. destruct (decide (keyof a = k)) as [<-|Hne].
    + rewrite get_group_add_eq.
      destruct (D3.get m (keyof a)); simpl;
        by rewrite <- ?app_assoc.
    + rewrite get_group_add_ne by done. done.
Qed.

Lemma get_rollup_length values keyof k :
  or_zero (D3.get (D3.rollup values (λ v, length v) keyof) k) =
    length (filter (λ a, keyof a = k) values).
Proof.
  unfold D3.rollup, D3.group.
  pose proof (get_group_from [] values keyof k) as Hg. simpl in Hg.
  assert (Hmap : ∀ (m : list (K * list A)),
    D3.get ((λ kg, (kg.1, length kg.2)) <$> m) k = length <$> D3.get m k).
  { induction m as [|[k' g] m IH]; simpl; [done|].
    destruct (decide (k = k')); done. }
  rewrite Hmap, Hg.
  destruct (filter _ values) as [|a g]; done.
Qed.
End RollupFacts.

(** ** Degrees *)

Lemma filter_endpoints (links : list Link.t) (k : key) :
  length (filter (λ e, e = k) (endpoints links)) =
    length (filter (λ l, Link.source l = k) links) +
    length (filter (λ l, Link.target l = k) links).
Proof.
  induction links as [|l links IH]; simpl; [done|].
  rewrite !filter_cons.
  destruct (decide (Link.source l = k)), (decide (Link.target l = k));
    simpl; rewrite IH; lia.
Qed.

Lemma degree_get (links : list Link.t) (k : key) :
  or_zero (D3.get (degree links) k) =
    length (filter (λ e, e = k) (endpoints links)).
Proof. unfold degree. apply (get_rollup_length (endpoints links) (λ d, d)). Qed.

Lemma filter_length_0 {A : Type} (P : A → Prop) `{∀ x, Decision (P x)}
    (l : list A) :
  Forall (λ x, ¬ P x) l → length (filter P l) = 0.
Proof.
  induction 1 as [|x l Hx _ IH]; [done|].
  rewrite filter_cons. by destruct (decide (P x)).
Qed.

(** C3.  For every node of the input, the derived degree is the number of
    link endpoints equal to the node's id, that is the number of links with
    that source plus the number of links with that target, so that a link
    from the node to itself counts twice; a node that no link mentions has
    degree 0, and with no links every degree is 0. *)
Theorem degree_counts_endpoints (raw : document) (i : nat) (n : Node.t) :
  nodes raw !! i = Some n →
  (∃ d, raw_nodes raw !! i = Some d ∧ Node.id n = RawNode.id d)
  ∧ Node.degree n =
      length (filter (λ e, e = Node.id n) (endpoints (raw_links raw)))
  ∧ Node.degree n =
      length (filter (λ l, Link.source l = Node.id n) (raw_links raw)) +
      length (filter (λ l, Link.target l = Node.id n) (raw_links raw))
  ∧ Node.degree n =
      length (filter (λ l, (Link.source l = Node.id n ∨
                            Link.target l = Node.id n) ∧
                           Link.source l ≠ Link.target l) (raw_links raw)) +
      2 * length (filter (λ l, Link.source l = Node.id n ∧
                               Link.target l = Node.id n) (raw_links raw))
  ∧ (Node.id n ∉ endpoints (raw_links raw) → Node.degree n = 0)
  ∧ (raw_links raw = [] → Node.degree n = 0).
Proof.
  intros Hn. unfold nodes in Hn. rewrite list_lookup_fmap in Hn.
  destruct (raw_nodes raw !! i) as [d|] eqn:Hd; [|done].
  injection Hn as <-. simpl.
  pose proof (degree_get (raw_links raw) (RawNode.id d)) as Hdeg.
  split; [by eexists|].
  split; [done|].
  split; [by rewrite Hdeg, filter_endpoints|].
  split.
  { rewrite Hdeg, filter_endpoints. clear Hdeg Hd.
    induction (raw_links raw) as [|l links IH]; [done|].
    rewrite !filter_cons.
    repeat case_decide; simpl in *; try lia; exfalso; intuition congruence. }
  split.
  - intros Hnot. rewrite Hdeg. apply filter_length_0.
    apply Forall_forall. intros e He ->. done.
  - intros Hnil. rewrite Hdeg, Hnil. done.
Qed.

(** On [Sample.loop], node [a] has degree 3: its self-link counts twice. *)
Lemma degree_counts_endpoints_witness :
  nodes Sample.loop !! 0 = Some (Node.mk (KStr "a") None None (Some "FR") 3)
  ∧ 3 = length (filter (λ e, e = KStr "a")
                  (endpoints (raw_links Sample.loop))).
Proof.
  split; [reflexivity|].
  exact (proj1 (proj2
    (degree_counts_endpoints Sample.loop 0
       (Node.mk (KStr "a") None None (Some "FR") 3) eq_refl))).
Defined.

(** ** The load callback *)

Lemma raw_unbound (graph : document) :
  (<["graph" := BDocument graph]> script_scope : gmap string binding)
    !! "raw" = None.
Proof. rewrite lookup_insert_ne by done. reflexivity. Qed.

(** C1.  The callback binds the fetched document to [graph] and reads
    [raw]; in the scope of the script [raw] is not bound, so for every
    fetched document the callback throws a reference error on its first
    statement: the page is left as it was, nothing is derived or rendered,
    and the promise of the script is rejected with that error. *)
Theorem callback_throws_reference_error (graph : document) (dom : Dom.t)
    (v : View.t) :
  callback script_scope graph dom v = (v, Throw (ReferenceError "raw"))
  ∧ main script_scope (Fulfilled graph) dom v =
      (v, Some (ReferenceError "raw")).
Proof.
  assert (Hcb : callback script_scope graph dom v =
                (v, Throw (ReferenceError "raw"))).
  { unfold callback. by rewrite raw_unbound. }
  split; [done|]. unfold main. by rewrite Hcb.
Qed.

(** With [raw] bound to the document the callback is its body. *)
Lemma callback_with_raw (outer : gmap string binding) (graph raw : document)
    (dom : Dom.t) (v : View.t) :
  outer !! "raw" = Some (BDocument raw) →
  callback outer graph dom v = body raw dom v.
Proof.
  intros Hraw. unfold callback. rewrite lookup_insert_ne by done.
  by rewrite Hraw.
Qed.

(** C2, as stated, fails: when the load is rejected the page is exactly the
    page before the script ran. *)
Lemma load_failure_not_surfaced :
  ¬ surfaced Sample.page
      (main script_scope (Rejected (Error "Failed to fetch")) Sample.dom
         Sample.page).1.
Proof. unfold surfaced. simpl. intros Hne. by apply Hne. Qed.

(** C2, amended.  When loading or parsing the input fails, the callback is
    not run and no rejection handler exists: the page is left unchanged (no
    graph, no legend, no message) and the rejection stays unhandled. *)
Theorem load_failure_leaves_page (outer : gmap string binding)
    (reason : error) (dom : Dom.t) (v : View.t) :
  let after := main outer (Rejected reason) dom v in
  after = (v, Some reason)
  ∧ ¬ surfaced v after.1
  ∧ View.circles after.1 = View.circles v
  ∧ View.legend after.1 = View.legend v
  ∧ View.tooltip after.1 = View.tooltip v.
Proof.
  cbv zeta. unfold main.
  split; [done|]. split; [by intros Hne|].
  split; [done|]. split; done.
Qed.


(** The circles the body draws, whether or not it runs to its end. *)
Lemma body_circles (raw : document) (dom : Dom.t) (v : View.t) :
  View.circles (body raw dom v).1 =
    zip_with (λ d f, Circle.mk (size (nodes raw) (Node.degree d)) f None None)
      (nodes raw)
      (fills (top10 (nodes raw)) (color (nodes raw)) (nodes raw)).1.
Proof.
  unfold body.
  destruct (fills _ _ _) as [fs scale].
  by destruct (createSimulation _ _ _).
Qed.


(** ** Resize *)

(** C10.  After a resize the centering force aims at half the new width
    and half the new height, the view box is the new viewport, and the
    simulation runs again from alpha 0.3, which is not zero. *)
Theorem resize_recenters (dom : Dom.t) (sim : Sim.t) (v : View.t) :
  let st := on_resize dom (sim, v) in
  Sim.forces st.1 !! "center" =
    Some (Force.Center (IZR (WIDTH dom) / 2) (IZR (HEIGHT dom) / 2))
  ∧ Sim.alpha st.1 = (3 / 10)%R
  ∧ Sim.alpha st.1 ≠ 0%R
  ∧ Sim.running st.1 = true
  ∧ Sim.alphaTarget st.1 = Sim.alphaTarget sim
  ∧ Sim.bodies st.1 = Sim.bodies sim
  ∧ (∀ name, name ≠ "center" →
       Sim.forces st.1 !! name = Sim.forces sim !! name)
  ∧ View.viewBox st.2 = Some (0, 0, WIDTH dom, HEIGHT dom)%Z.
Proof.
  simpl. repeat split.
  - apply lookup_insert_eq.
  - lra.
  - intros name Hne. by apply lookup_insert_ne.
Qed.

(** ** Radius scale *)

Lemma extent_from_equal {A : Type} (accessor : A → nat) (k : nat)
    (values : list A) :
  Forall (λ a, accessor a = k) values →
  fold_left
    (λ acc a,
       let value := accessor a in
       match acc with
       | None => Some (value, value)
       | Some (lo, hi) =>
           Some (if (value <? lo)%nat then value else lo,
                 if (hi <? value)%nat then value else hi)
       end)
    values (Some (k, k)) = Some (k, k).
Proof.
  induction 1 as [|a values Ha _ IH]; simpl; [done|].
  rewrite Ha, Nat.ltb_irrefl. exact IH.
Qed.

Lemma extent_equal {A : Type} (accessor : A → nat) (k : nat)
    (values : list A) :
  values ≠ [] →
  Forall (λ a, accessor a = k) values →
  D3.extent values accessor = Some (k, k).
Proof.
  intros Hne Hall. destruct Hall as [|a values Ha Hall]; [done|].
  unfold D3.extent. simpl. rewrite Ha. by apply extent_from_equal.
Qed.

Lemma scaleSqrt_degenerate (k x : nat) :
  D3.scaleSqrt (Some (k, k)) RADIUS_RANGE x = Some (15 / 2)%R.
Proof.
  unfold D3.scaleSqrt, D3.bimap, RADIUS_RANGE. f_equal.
  destruct (Rlt_dec _ _) as [Hlt|_]; [lra|].
  unfold D3.normalize.
  destruct (Req_dec_T _ _) as [_|Hne]; [|lra].
  unfold D3.interpolateNumber. lra.
Qed.

Lemma size_equal_degrees (ns : list Node.t) (k x : nat) :
  ns ≠ [] →
  Forall (λ n, Node.degree n = k) ns →
  size ns x = Some (15 / 2)%R.
Proof.
  intros Hne Hall. unfold size.
  rewrite (extent_equal _ k) by done. apply scaleSqrt_degenerate.
Qed.

Lemma nodes_no_links (raw : document) :
  raw_links raw = [] → Forall (λ n, Node.degree n = 0) (nodes raw).
Proof.
  intros Hnil. unfold nodes. apply Forall_fmap, Forall_forall.
  intros d _. simpl. by rewrite degree_get, Hnil.
Qed.

(** C4.  When all nodes have the same degree the radius scale is the
    constant 7.5, the midpoint of the radius range [3, 12], for every node
    (and for any argument): the normalisation takes the branch that does
    not divide.  With no links every degree is 0, so this applies, and
    every circle is drawn with radius 7.5. *)
Theorem size_degenerate (raw : document) (dom : Dom.t) (v : View.t) :
  (∀ k, Forall (λ n, Node.degree n = k) (nodes raw) →
     Forall (λ n, size (nodes raw) (Node.degree n) = Some (15 / 2)%R)
       (nodes raw)
     ∧ Forall (λ c, Circle.r c = Some (15 / 2)%R)
         (View.circles (body raw dom v).1))
  ∧ (raw_links raw = [] →
     Forall (λ n, Node.degree n = 0
                  ∧ size (nodes raw) (Node.degree n) = Some (15 / 2)%R)
       (nodes raw))
  ∧ (fst RADIUS_RANGE + snd RADIUS_RANGE = 2 * (15 / 2))%R.
Proof.
  assert (Hsize : ∀ k, Forall (λ n, Node.degree n = k) (nodes raw) →
            ∀ n, n ∈ nodes raw → ∀ x, size (nodes raw) x = Some (15 / 2)%R).
  { intros k Hall n Hn x. apply (size_equal_degrees _ k); [|done].
    intros Hnil. rewrite Hnil in Hn. by apply not_elem_of_nil in Hn. }
  split; [|split].
  - intros k Hall. split.
    + apply Forall_forall. intros n Hn. by apply (Hsize k Hall n).
    + rewrite body_circles. apply Forall_forall. intros c Hc.
      apply list_elem_of_lookup in Hc as [i Hi].
      apply lookup_zip_with_Some in Hi as (d & f & -> & Hd & _).
      simpl. apply (Hsize k Hall d). by eapply list_elem_of_lookup_2.
  - intros Hnil. pose proof (nodes_no_links raw Hnil) as Hzero.
    apply Forall_forall. intros n Hn. split.
    + by eapply (proj1 (Forall_forall _ _) Hzero).
    + by apply (Hsize 0 Hzero n).
  - simpl. lra.
Qed.

(** On [Sample.anonymous] (two nodes, no links) the radius is 7.5. *)
Lemma size_degenerate_witness :
  raw_links Sample.anonymous = []
  ∧ Forall (λ n, Node.degree n = 0
                 ∧ size (nodes Sample.anonymous) (Node.degree n) =
                     Some (15 / 2)%R)
      (nodes Sample.anonymous).
Proof.
  split; [reflexivity|].
  exact (proj1 (proj2
    (size_degenerate Sample.anonymous Sample.dom Sample.page)) eq_refl).
Defined.

(** ** Tick: clamping into the viewport *)

Lemma clamp_bounds (limit : Z) (x : R) :
  (6 <= clamp limit x <= Rmax 6 (IZR limit - 6))%R.
Proof.
  unfold clamp, Math_max, Math_min, Rmax, Rmin.
  repeat destruct (Rle_dec _ _); lra.
Qed.

Lemma clamp_wide (limit : Z) (x : R) :
  (12 ≤ limit)%Z → (6 <= clamp limit x <= IZR limit - 6)%R.
Proof.
  intros Hwide. apply IZR_le in Hwide.
  pose proof (clamp_bounds limit x) as [Hlo Hhi].
  split; [done|]. unfold Rmax in Hhi. destruct (Rle_dec _ _); lra.
Qed.

Lemma clamp_narrow (limit : Z) (x : R) :
  (limit < 12)%Z → clamp limit x = 6%R.
Proof.
  intros Hnarrow. apply IZR_lt in Hnarrow.
  unfold clamp, Math_max, Math_min, Rmax, Rmin.
  repeat destruct (Rle_dec _ _); lra.
Qed.


Lemma clamp_beyond (limit : Z) (x : R) :
  (12 ≤ limit)%Z →
  ((IZR limit - 6 <= x)%R → clamp limit x = (IZR limit - 6)%R)
  ∧ ((x <= 6)%R → clamp limit x = 6%R).
Proof.
  intros Hwide. apply IZR_le in Hwide.
  unfold clamp, Math_max, Math_min, Rmax, Rmin.
  split; intros Hx; repeat destruct (Rle_dec _ _); lra.
Qed.

Lemma ticked_circles (dom : Dom.t) (s : Sim.t) (v : View.t) :
  View.circles (ticked dom s v).2 =
    zip_with move_circle (View.circles v) (Sim.bodies (ticked dom s v).1).
Proof. reflexivity. Qed.

Lemma ticked_bodies (dom : Dom.t) (s : Sim.t) (v : View.t) :
  Sim.bodies (ticked dom s v).1 = clamp_body dom <$> Sim.bodies s.
Proof. reflexivity. Qed.

Lemma integrate_pinned (b : Body.t) (px py : R) :
  Body.fx b = Some px → Body.fy b = Some py →
  Body.x (Sim.integrate_body b) = px ∧ Body.y (Sim.integrate_body b) = py.
Proof. intros Hx Hy. unfold Sim.integrate_body. by rewrite Hx, Hy. Qed.

(** C8, as stated, fails: in a chart area ten pixels wide a node at the
    origin is drawn at x = 6, which is not at most width - 6 = 4. *)
Lemma tick_narrow_viewport :
  ¬ Forall (within_margin Sample.narrow)
      (View.circles
         (tick (λ s, s) Sample.narrow Sample.at_origin Sample.one_circle).2).
Proof.
  intros Hall. apply Forall_inv in Hall.
  unfold within_margin in Hall. simpl in Hall.
  destruct Hall as [[_ Hx] _]. revert Hx.
  unfold clamp, Math_max, Math_min, Rmax, Rmin.
  repeat destruct (Rle_dec _ _); lra.
Qed.

(** C8, amended.  On every tick, whatever the forces did, each node is
    moved in place to x >= 6 and y >= 6 and its circle is drawn there; in a
    viewport at least 12px wide and high the position also satisfies
    x <= width - 6 and y <= height - 6, and a node pinned by a drag, also
    outside the viewport, is drawn at its pinned position clamped to the
    margin of the nearest edge.  In a viewport narrower than 12px the
    coordinate is 6. *)
Theorem tick_clamps (forces : Sim.t → Sim.t) (dom : Dom.t) (s : Sim.t)
    (v : View.t) :
  let st := tick forces dom s v in
  View.circles st.2 = zip_with move_circle (View.circles v) (Sim.bodies st.1)
  ∧ Forall (λ b, (6 <= Body.x b <= Rmax 6 (IZR (WIDTH dom) - 6))%R
                 ∧ (6 <= Body.y b <= Rmax 6 (IZR (HEIGHT dom) - 6))%R)
      (Sim.bodies st.1)
  ∧ ((12 ≤ WIDTH dom)%Z → (12 ≤ HEIGHT dom)%Z →
     Forall (within_margin dom) (View.circles st.2)
     ∧ (∀ i b c px py,
          Sim.bodies (forces s) !! i = Some b →
          Body.fx b = Some px → Body.fy b = Some py →
          View.circles st.2 !! i = Some c →
          Circle.cx c = Some (clamp (WIDTH dom) px)
          ∧ Circle.cy c = Some (clamp (HEIGHT dom) py)
          ∧ ((IZR (WIDTH dom) - 6 <= px)%R →
             Circle.cx c = Some (IZR (WIDTH dom) - 6)%R)
          ∧ ((px <= 6)%R → Circle.cx c = Some 6%R)
          ∧ ((IZR (HEIGHT dom) - 6 <= py)%R →
             Circle.cy c = Some (IZR (HEIGHT dom) - 6)%R)
          ∧ ((py <= 6)%R → Circle.cy c = Some 6%R)))
  ∧ ((WIDTH dom < 12)%Z → Forall (λ b, Body.x b = 6%R) (Sim.bodies st.1))
  ∧ ((HEIGHT dom < 12)%Z → Forall (λ b, Body.y b = 6%R) (Sim.bodies st.1)).
Proof.
  cbv zeta. unfold tick. rewrite ticked_circles, ticked_bodies.
  set (bs := Sim.bodies (Sim.integrate (forces s))).
  split; [done|]. split; [|split; [|split]].
  - apply Forall_fmap, Forall_forall. intros b _. simpl.
    split; apply clamp_bounds.
  - intros Hw Hh. split.
    + apply Forall_forall. intros c Hc.
      apply list_elem_of_lookup in Hc as [i Hi].
      apply lookup_zip_with_Some in Hi as (c0 & b & -> & _ & Hb).
      apply list_lookup_fmap_Some in Hb as (b0 & -> & _).
      unfold within_margin. simpl. split; by apply clamp_wide.
    + intros i b c px py Hb Hpx Hpy Hc.
      apply lookup_zip_with_Some in Hc as (c0 & b' & -> & _ & Hb').
      apply list_lookup_fmap_Some in Hb' as (b0 & -> & Hb0).
      subst bs. simpl in Hb0.
      apply list_lookup_fmap_Some in Hb0 as (b1 & -> & Hb1).
      rewrite Hb in Hb1. injection Hb1 as <-.
      destruct (integrate_pinned b px py Hpx Hpy) as [Hx Hy].
      simpl. rewrite Hx, Hy.
      destruct (clamp_beyond (WIDTH dom) px Hw) as [Hxr Hxl].
      destruct (clamp_beyond (HEIGHT dom) py Hh) as [Hyr Hyl].
      repeat split; intros Hedge; f_equal; auto.
  - intros Hnarrow. apply Forall_fmap, Forall_forall. intros b _. simpl.
    by apply clamp_narrow.
  - intros Hnarrow. apply Forall_fmap, Forall_forall. intros b _. simpl.
    by apply clamp_narrow.
Qed.

(** In an 800 by 600 viewport the sample circle is drawn inside the
    margins. *)
Lemma tick_clamps_witness :
  ((12 ≤ WIDTH Sample.dom)%Z ∧ (12 ≤ HEIGHT Sample.dom)%Z)
  ∧ Forall (within_margin Sample.dom)
      (View.circles
         (tick (λ s, s) Sample.dom Sample.at_origin Sample.one_circle).2).
Proof.
  assert (Hw : (12 ≤ WIDTH Sample.dom)%Z) by (vm_compute; discriminate).
  assert (Hh : (12 ≤ HEIGHT Sample.dom)%Z) by (vm_compute; discriminate).
  split; [done|].
  exact (proj1 (proj1 (proj2 (proj2
    (tick_clamps (λ s, s) Sample.dom Sample.at_origin Sample.one_circle)))
    Hw Hh)).
Defined.

(** ** Drag *)

Lemma dragstarted_bodies (event : DragEvent.t) (i : nat) (sim : Sim.t) :
  Sim.bodies (dragstarted event i sim) =
    alter (λ d, pin (Some (Body.x d)) (Some (Body.y d)) d) i (Sim.bodies sim).
Proof. unfold dragstarted. by destruct (_ =? _)%nat. Qed.

Lemma dragended_bodies (event : DragEvent.t) (i : nat) (sim : Sim.t) :
  Sim.bodies (dragended event i sim) = alter (pin None None) i (Sim.bodies sim).
Proof. unfold dragended. by destruct (_ =? _)%nat. Qed.

Lemma dragstarted_alphaTarget (event : DragEvent.t) (i : nat) (sim : Sim.t) :
  Sim.alphaTarget (dragstarted event i sim) =
    if (DragEvent.active event =? 0)%nat then (3 / 10)%R
    else Sim.alphaTarget sim.
Proof. unfold dragstarted. by destruct (_ =? _)%nat. Qed.

Lemma dragended_alphaTarget (event : DragEvent.t) (i : nat) (sim : Sim.t) :
  Sim.alphaTarget (dragended event i sim) =
    if (DragEvent.active event =? 0)%nat then 0%R else Sim.alphaTarget sim.
Proof. unfold dragended. by destruct (_ =? _)%nat. Qed.

Lemma handle_energy (st : nat * Sim.t * View.t) (e : ui_event) :
  energy_follows_drag st → energy_follows_drag (handle st e).
Proof.
  destruct st as [[active sim] v]. unfold energy_follows_drag. simpl.
  intros Hinv. destruct e as [g|dom|dom|dom|dom]; simpl; try done.
  destruct g as [i x y|i x y|i x y], active as [|rest];
    cbn -[dragstarted dragended dragged] in *;
    rewrite ?dragstarted_alphaTarget, ?dragended_alphaTarget;
    cbn -[dragstarted dragended dragged]; try done.
  by destruct rest.
Qed.

Lemma handle_all_energy (es : list ui_event) (st : nat * Sim.t * View.t) :
  energy_follows_drag st → energy_follows_drag (handle_all es st).
Proof.
  revert st. induction es as [|e es IH]; intros st Hinv; [done|].
  simpl. apply IH. by apply handle_energy.
Qed.

(** C9.  Pointer-down pins the node at its current position, a drag moves
    the pin to the pointer, pointer-up sets the pin to null; a pinned node
    is placed at its pin by the simulation and a released one moves by its
    velocity again.  Through any sequence of gestures, slider inputs and
    resizes, starting with no gesture and a neutral energy target, the
    target is 0.3 while a gesture is in progress and 0 when none is; the
    first pointer-down also restarts the simulation. *)
Theorem drag_protocol :
  (∀ event i sim d, Sim.bodies sim !! i = Some d →
     Sim.bodies (dragstarted event i sim) !! i =
       Some (pin (Some (Body.x d)) (Some (Body.y d)) d))
  ∧ (∀ event i sim d, Sim.bodies sim !! i = Some d →
     Sim.bodies (dragged event i sim) !! i =
       Some (pin (Some (DragEvent.x event)) (Some (DragEvent.y event)) d))
  ∧ (∀ event i sim d, Sim.bodies sim !! i = Some d →
     Sim.bodies (dragended event i sim) !! i = Some (pin None None d))
  ∧ (∀ d px py,
       Body.x (Sim.integrate_body (pin (Some px) (Some py) d)) = px
       ∧ Body.y (Sim.integrate_body (pin (Some px) (Some py) d)) = py)
  ∧ (∀ d,
       Body.x (Sim.integrate_body (pin None None d)) =
         (Body.x d + Body.vx d * Sim.velocityDecay)%R
       ∧ Body.y (Sim.integrate_body (pin None None d)) =
         (Body.y d + Body.vy d * Sim.velocityDecay)%R)
  ∧ (∀ es sim v, Sim.alphaTarget sim = 0%R →
       let st := handle_all es (0, sim, v) in
       Sim.alphaTarget st.1.2 =
         if (st.1.1 =? 0)%nat then 0%R else (3 / 10)%R)
  ∧ (∀ i x y sim,
       let st := drag (PointerDown i x y) (0, sim) in
       st.1 = 1 ∧ Sim.alphaTarget st.2 = (3 / 10)%R
       ∧ Sim.running st.2 = true)
  ∧ (∀ i x y sim,
       let st := drag (PointerUp i x y) (1, sim) in
       st.1 = 0 ∧ Sim.alphaTarget st.2 = 0%R).
Proof.
  repeat split.
  - intros event i sim d Hd.
    by rewrite dragstarted_bodies, list_lookup_alter_eq, Hd.
  - intros event i sim d Hd. unfold dragged. simpl.
    by rewrite list_lookup_alter_eq, Hd.
  - intros event i sim d Hd.
    by rewrite dragended_bodies, list_lookup_alter_eq, Hd.
  - intros es sim v Htarget.
    apply (handle_all_energy es (0, sim, v)). exact Htarget.
Qed.

(** A press, a move and a release on the sample body: the pin follows the
    protocol and the energy target returns to 0. *)
Lemma drag_protocol_witness :
  Sim.bodies Sample.at_origin !! 0 = Some (Body.mk 0 0 0 0 None None)
  ∧ Sim.bodies (dragged (DragEvent.mk 1 40 50) 0 Sample.at_origin) !! 0 =
      Some (Body.mk 0 0 0 0 (Some 40%R) (Some 50%R))
  ∧ Sim.alphaTarget
      (handle_all
         [Gesture (PointerDown 0 0 0); Gesture (PointerMove 0 40 50);
          Gesture (PointerUp 0 40 50)]
         (0, Sample.at_origin, Sample.page)).1.2 = 0%R.
Proof.
  split; [reflexivity|]. split.
  - exact (proj1 (proj2 drag_protocol) (DragEvent.mk 1 40 50) 0
             Sample.at_origin (Body.mk 0 0 0 0 None None) eq_refl).
  - exact (proj1 (proj2 (proj2 (proj2 (proj2 (proj2 drag_protocol)))))
             [Gesture (PointerDown 0 0 0); Gesture (PointerMove 0 40 50);
              Gesture (PointerUp 0 40 50)]
             Sample.at_origin Sample.page eq_refl).
Defined.

(** ** Tooltip *)

Lemma append_assoc (a b c : string) :
  String.append (String.append a b) c = String.append a (String.append b c).
Proof.
  induction a as [|ch a IH]; [reflexivity|].
  change (String ch (String.append (String.append a b) c) =
          String ch (String.append a (String.append b c))).
  by rewrite IH.
Qed.

Lemma to_uint_nonnil (n : nat) : Nat.to_uint n ≠ Decimal.Nil.
Proof.
  rewrite <- (DecimalNat.Unsigned.of_to n) at 1.
  rewrite DecimalNat.Unsigned.to_of. apply DecimalFacts.unorm_nonnil.
Qed.

Lemma parse_string_of_nat (n : nat) : parse_nat (string_of_nat n) = Some n.
Proof.
  unfold parse_nat, string_of_nat.
  rewrite NilZero.usu by apply to_uint_nonnil. simpl.
  by rewrite DecimalNat.Unsigned.of_to.
Qed.

Lemma join_last (sep last : string) (parts : list string) :
  ∃ pre, join sep (parts ++ [last]) = String.append pre last.
Proof.
  induction parts as [|p parts [pre IH]]; simpl.
  - by exists EmptyString.
  - destruct (parts ++ [last]) as [|q rest] eqn:Hrest.
    { by destruct parts. }
    exists (String.append p (String.append sep pre)).
    by rewrite IH, !append_assoc.
Qed.

Lemma tooltip_lines_degree (d : Node.t) :
  ∃ pre, tooltip_lines d =
    String.append pre
      (String.append "Degree: " (string_of_nat (Node.degree d))).
Proof.
  unfold tooltip_lines.
  set (deg := String.append "Degree: " (string_of_nat (Node.degree d))).
  match goal with
  | |- context [filter ?P [?a; ?b; ?c; deg]] =>
      change [a; b; c; deg] with ([a; b; c] ++ [deg]);
      rewrite (filter_app P), (filter_cons P deg), filter_nil
  end.
  rewrite decide_True by done.
  apply join_last.
Qed.

(** C7.  A click on a node shows the tooltip, whose text ends with the
    line [Degree: n] where [n] is the decimal literal of the node's degree,
    and puts the one-shot [click.tooltip] listener on the body.  The
    listener tests the path of the click it was created in, which is empty
    once that click has been dispatched, so the next click that reaches the
    body hides the tooltip and removes the listener wherever it lands:
    outside the tooltip, and also inside it. *)
Theorem click_inside_tooltip_hides (ns : list Node.t) (v : View.t) (i : nat)
    (d : Node.t) (x y x' y' : R) :
  ns !! i = Some d →
  let shown := click (OnCircle i) x y ns v in
  Tooltip.hidden (View.tooltip shown) = false
  ∧ (∃ pre, Tooltip.html (View.tooltip shown) =
       String.append pre
         (String.append "Degree: " (string_of_nat (Node.degree d))))
  ∧ parse_nat (string_of_nat (Node.degree d)) = Some (Node.degree d)
  ∧ (∃ event, View.click_tooltip shown = Some event
       ∧ Event.path event = path_of (OnCircle i)
       ∧ Event.composedPath event = [])
  ∧ (∀ t, Body ∈ path_of t → (∀ j, t ≠ OnCircle j) →
       let after := click t x' y' ns shown in
       Tooltip.hidden (View.tooltip after) = true
       ∧ View.click_tooltip after = None)
  ∧ Tooltip.hidden (View.tooltip (click OnTooltip x' y' ns shown)) = true
  ∧ View.click_tooltip (click OnTooltip x' y' ns shown) = None
  ∧ View.click_tooltip (click OffBody x' y' ns shown) =
      View.click_tooltip shown.
Proof.
  intros Hd. cbv zeta.
  set (e := Event.mk (path_of (OnCircle i)) true x y).
  assert (Hshown : click (OnCircle i) x y ns v =
            on_click (Event.finished e) d (capturing e v)).
  { unfold click, at_target. fold e. by rewrite Hd. }
  rewrite Hshown. clear Hshown.
  set (shown := on_click (Event.finished e) d (capturing e v)).
  assert (Hany : ∀ t, Body ∈ path_of t → (∀ j, t ≠ OnCircle j) →
            Tooltip.hidden (View.tooltip (click t x' y' ns shown)) = true
            ∧ View.click_tooltip (click t x' y' ns shown) = None).
  { intros t Hbody Hnot.
    assert (Hcap : capturing (Event.mk (path_of t) true x' y') shown =
              click_tooltip_listener (Event.finished e)
                (Event.mk (path_of t) true x' y')
                (View.set_click_tooltip None shown)).
    { unfold capturing. simpl View.click_tooltip.
      by rewrite bool_decide_eq_true_2 by exact Hbody. }
    unfold click. rewrite Hcap.
    destruct t as [j| | |]; [by destruct (Hnot j)|done..]. }
  split; [done|]. split; [apply tooltip_lines_degree|].
  split; [apply parse_string_of_nat|].
  split; [by eexists|].
  split; [exact Hany|].
  split; [|split].
  - apply (Hany OnTooltip); [simpl; repeat constructor|done].
  - apply (Hany OnTooltip); [simpl; repeat constructor|done].
  - reflexivity.
Qed.

(** On [Sample.loop]: click node [a], then click inside the tooltip. *)
Lemma click_inside_tooltip_hides_witness :
  nodes Sample.loop !! 0 = Some (Node.mk (KStr "a") None None (Some "FR") 3)
  ∧ Tooltip.hidden
      (View.tooltip
         (click OnTooltip 5 5 (nodes Sample.loop)
            (click (OnCircle 0) 100 100 (nodes Sample.loop) Sample.page)))
    = true.
Proof.
  split; [reflexivity|].
  exact (proj1 (proj2 (proj2 (proj2 (proj2 (proj2
    (click_inside_tooltip_hides (nodes Sample.loop) Sample.page 0
       (Node.mk (KStr "a") None None (Some "FR") 3) 100 100 5 5
       eq_refl))))))).
Defined.

(** ** Grouping by key: order of first appearance *)

Lemma filter_none {A : Type} (P : A → Prop) `{∀ x, Decision (P x)}
    (l : list A) :
  Forall (λ x, ¬ P x) l → filter P l = [].
Proof.
  induction 1 as [|x l Hx _ IH]; [done|].
  by rewrite filter_cons, decide_False.
Qed.

Lemma filter_all {A : Type} (P : A → Prop) `{∀ x, Decision (P x)}
    (l : list A) :
  Forall P l → filter P l = l.
Proof.
  induction 1 as [|x l Hx _ IH]; [done|].
  by rewrite filter_cons, decide_True, IH.
Qed.

Section FirstSeen.
Context {K : Type} `{EqDecision K}.
Implicit Types (l : list K) (k : K).

Lemma first_seen_elem_of l k : k ∈ D3.first_seen l ↔ k ∈ l.
Proof.
  induction l as [|k' l IH]; simpl; [done|].
  rewrite !elem_of_cons, list_elem_of_filter, IH.
  destruct (decide (k = k')); intuition congruence.
Qed.

Lemma first_seen_NoDup l : NoDup (D3.first_seen l).
Proof.
  induction l as [|k l IH]; simpl; constructor.
  - rewrite list_elem_of_filter. intros [Hne _]. by apply Hne.
  - by apply NoDup_filter.
Qed.

Lemma first_seen_id l : NoDup l → D3.first_seen l = l.
Proof.
  induction 1 as [|k l Hk _ IH]; simpl; [done|].
  rewrite IH. f_equal. apply filter_all, Forall_forall.
  intros k' Hk' ->. done.
Qed.

Lemma first_seen_constant l k :
  l ≠ [] → Forall (λ k', k' = k) l → D3.first_seen l = [k].
Proof.
  intros Hne Hall. destruct Hall as [|k' l -> Hall]; [done|]. simpl.
  f_equal. apply filter_none, Forall_forall.
  intros k' Hk' Hneq. rewrite first_seen_elem_of in Hk'.
  apply Hneq. by apply (proj1 (Forall_forall _ _) Hall).
Qed.
End FirstSeen.

Section GroupKeys.
Context {A K : Type} `{EqDecision K}.
Implicit Types (m : list (K * list A)) (values : list A) (keyof : A → K).

Lemma group_add_keys m k a :
  (D3.group_add k a m).*1 =
    if decide (k ∈ m.*1) then m.*1 else m.*1 ++ [k].
Proof.
  induction m as [|[k' g] m IH]; [reflexivity|].
  cbn [D3.group_add]. rewrite fmap_cons. cbn [fst].
  destruct (decide (k = k')) as [->|Hne].
  - rewrite decide_True; [done|]. apply list_elem_of_here.
  - rewrite fmap_cons, IH. cbn [fst].
    destruct (decide (k ∈ m.*1)) as [Hin|Hout].
    + rewrite decide_True; [done|]. by apply list_elem_of_further.
    + rewrite decide_False; [done|].
      rewrite elem_of_cons. intuition congruence.
Qed.

Lemma group_from_keys m values keyof :
  (D3.group_from m values keyof).*1 =
    m.*1 ++ filter (λ k, k ∉ m.*1) (D3.first_seen (keyof <$> values)).
Proof.
  revert m. induction values as [|a values IH]; intros m.
  - simpl. by rewrite app_nil_r.
  - unfold D3.group_from in *. simpl. rewrite IH, group_add_keys.
    set (seen := D3.first_seen (keyof <$> values)).
    rewrite filter_cons, list_filter_filter.
    destruct (decide (keyof a ∈ m.*1)) as [Hin|Hout].
    + rewrite decide_False by tauto. f_equal.
      apply list_filter_iff. intros k. split; [|tauto].
      intros Hk. split; [done|]. intros ->. done.
    + rewrite decide_True by done. rewrite <- app_assoc. simpl.
      do 2 f_equal. apply list_filter_iff. intros k.
      rewrite elem_of_app, list_elem_of_singleton. tauto.
Qed.

Lemma rollup_keys {V : Type} values (reduce : list A → V) keyof :
  (D3.rollup values reduce keyof).*1 = D3.first_seen (keyof <$> values).
Proof.
  unfold D3.rollup, D3.group.
  rewrite <- list_fmap_compose.
  change ((D3.group_from [] values keyof).*1 =
          D3.first_seen (keyof <$> values)).
  rewrite group_from_keys. simpl. apply filter_all, Forall_forall.
  intros k _. apply not_elem_of_nil.
Qed.

(** In a map with distinct keys an entry is what [get] returns. *)
Lemma get_entry {V : Type} (m : list (K * V)) k v :
  (k, v) ∈ m → NoDup m.*1 → D3.get m k = Some v.
Proof.
  induction m as [|[k' v'] m IH]; simpl; intros Hin Hnd.
  - by apply not_elem_of_nil in Hin.
  - apply NoDup_cons in Hnd as [Hk' Hnd].
    apply elem_of_cons in Hin as [Heq|Hin].
    + injection Heq as -> ->. by rewrite decide_True.
    + rewrite decide_False; [by apply IH|].
      intros ->. apply Hk'. apply list_elem_of_fmap. by exists (k', v).
Qed.

Lemma rollup_length_entry values keyof k n :
  (k, n) ∈ D3.rollup values (λ v, length v) keyof →
  n = length (filter (λ a, keyof a = k) values).
Proof.
  intros Hin. rewrite <- (get_rollup_length values keyof k).
  rewrite (get_entry _ k n Hin).
  - pose proof (get_rollup_length values keyof k) as Hlen.
    rewrite (get_entry _ k n Hin) in Hlen.
    + by destruct n.
    + rewrite rollup_keys. apply first_seen_NoDup.
  - rewrite rollup_keys. apply first_seen_NoDup.
Qed.
End GroupKeys.

(** ** Sorting by descending count *)

Section SortFacts.
Context {A : Type} (f : A → nat).
Implicit Types (a : A) (l acc : list A) (k : nat).

Lemma descending_nonpos (x y : nat) :
  (D3.descending x y <=? 0)%Z = bool_decide (y ≤ x).
Proof.
  unfold D3.descending.
  destruct (y <? x) eqn:Hlt; [|destruct (x <? y) eqn:Hgt].
  - apply Nat.ltb_lt in Hlt. rewrite bool_decide_eq_true_2 by lia. done.
  - apply Nat.ltb_lt in Hgt. rewrite bool_decide_eq_false_2 by lia. done.
  - apply Nat.ltb_ge in Hlt, Hgt.
    rewrite bool_decide_eq_true_2 by lia. done.
Qed.

Lemma insert_sorted_cons a b l :
  insert_sorted (λ a b, D3.descending (f a) (f b)) a (b :: l) =
    if decide (f a ≤ f b)
    then b :: insert_sorted (λ a b, D3.descending (f a) (f b)) a l
    else a :: b :: l.
Proof.
  cbn [insert_sorted]. rewrite descending_nonpos.
  by destruct (decide (f a ≤ f b));
    [rewrite bool_decide_eq_true_2|rewrite bool_decide_eq_false_2].
Qed.

Lemma insert_sorted_perm a l :
  insert_sorted (λ a b, D3.descending (f a) (f b)) a l ≡ₚ a :: l.
Proof.
  induction l as [|b l IH]; [done|].
  rewrite insert_sorted_cons. destruct (decide (f a ≤ f b)); [|done].
  rewrite IH. apply perm_swap.
Qed.

Lemma insert_sorted_sorted a l :
  StronglySorted (λ a b, f b ≤ f a) l →
  StronglySorted (λ a b, f b ≤ f a)
    (insert_sorted (λ a b, D3.descending (f a) (f b)) a l).
Proof.
  induction 1 as [|b l Hsorted IH Hb].
  - repeat constructor.
  - rewrite insert_sorted_cons. destruct (decide (f a ≤ f b)) as [Hle|Hgt].
    + constructor; [done|]. rewrite insert_sorted_perm. by constructor.
    + constructor; [by constructor|]. constructor; [lia|].
      eapply Forall_impl; [exact Hb|]. simpl. lia.
Qed.

Lemma insert_sorted_filter k a l :
  StronglySorted (λ a b, f b ≤ f a) l →
  filter (λ x, f x = k)
    (insert_sorted (λ a b, D3.descending (f a) (f b)) a l) =
  filter (λ x, f x = k) l ++ filter (λ x, f x = k) [a].
Proof.
  induction 1 as [|b l Hsorted IH Hb]; [done|].
  rewrite insert_sorted_cons. destruct (decide (f a ≤ f b)) as [Hle|Hgt].
  - rewrite !(filter_cons _ b), IH. by destruct (decide (f b = k)).
  - rewrite (filter_cons _ a), (filter_cons _ a []), filter_nil.
    destruct (decide (f a = k)) as [Hk|Hk]; [|by rewrite app_nil_r].
    rewrite (filter_none _ (b :: l)); [done|].
    constructor; [lia|].
    eapply Forall_impl; [exact Hb|]. simpl. lia.
Qed.

Lemma sort_from acc l :
  StronglySorted (λ a b, f b ≤ f a) acc →
  let sorted :=
    fold_left
      (λ acc a, insert_sorted (λ a b, D3.descending (f a) (f b)) a acc)
      l acc in
  sorted ≡ₚ acc ++ l
  ∧ StronglySorted (λ a b, f b ≤ f a) sorted
  ∧ ∀ k, filter (λ x, f x = k) sorted =
         filter (λ x, f x = k) acc ++ filter (λ x, f x = k) l.
Proof.
  revert acc. induction l as [|a l IH]; intros acc Hacc; cbn [fold_left].
  - rewrite app_nil_r. split; [done|]. split; [done|].
    intros k. by rewrite filter_nil, app_nil_r.
  - destruct (IH _ (insert_sorted_sorted a acc Hacc)) as (Hp & Hs & Hf).
    split; [|split; [done|]].
    + rewrite Hp, insert_sorted_perm. apply Permutation_middle.
    + intros k. rewrite Hf, insert_sorted_filter by done.
      rewrite <- app_assoc. f_equal.
      by rewrite <- filter_app.
Qed.

(** The sort: a permutation of its input, in descending order of [f],
    with elements of equal [f] in their input order. *)
Lemma sort_descending_stable l :
  sort (λ a b, D3.descending (f a) (f b)) l ≡ₚ l
  ∧ StronglySorted (λ a b, f b ≤ f a)
      (sort (λ a b, D3.descending (f a) (f b)) l)
  ∧ ∀ k, filter (λ x, f x = k) (sort (λ a b, D3.descending (f a) (f b)) l)
         = filter (λ x, f x = k) l.
Proof. apply (sort_from [] l). constructor. Qed.
End SortFacts.

(** ** Countries and colours *)

Lemma or_string_nonempty (o : option string) : or_string o "Unknown" ≠ "".
Proof. by destruct o as [[|ch s]|]. Qed.

Lemma index_of_lookup (l : list string) (i : nat) (c : string) :
  NoDup l → l !! i = Some c → D3.index_of c l = Some i.
Proof.
  intros Hnd. revert i. induction Hnd as [|c' l Hc' _ IH]; intros i Hi.
  - by rewrite lookup_nil in Hi.
  - cbn [D3.index_of]. destruct i as [|i]; simpl in Hi.
    + injection Hi as ->. by rewrite decide_True.
    + rewrite decide_False.
      * by rewrite (IH i Hi).
      * intros ->. apply Hc'. by eapply list_elem_of_lookup_2.
Qed.

Lemma index_of_elem_of (l : list string) (c : string) (i : nat) :
  D3.index_of c l = Some i → l !! i = Some c.
Proof.
  revert i. induction l as [|c' l IH]; intros i; cbn [D3.index_of]; [done|].
  destruct (decide (c = c')) as [->|Hne].
  - by intros [= <-].
  - destruct (D3.index_of c l) as [j|]; [|done].
    intros [= <-]. by apply IH.
Qed.

Lemma palette_facts :
  length D3.schemeTableau10 = 10
  ∧ NoDup D3.schemeTableau10
  ∧ FALLBACK_GRAY ∉ D3.schemeTableau10.
Proof.
  split; [reflexivity|]. split.
  - by apply (bool_decide_unpack _).
  - by apply (bool_decide_unpack _).
Qed.

Lemma byCountry_rows (ns : list Node.t) :
  Row.country <$> ((λ kv, Row.mk kv.1 kv.2) <$> byCountry ns) =
    D3.first_seen ((λ d, or_string (Node.country d) "Unknown") <$> ns).
Proof.
  rewrite <- list_fmap_compose. unfold byCountry.
  rewrite <- (rollup_keys ns (λ v, length v)
                (λ d, or_string (Node.country d) "Unknown")).
  done.
Qed.

Lemma sortedCountries_perm (ns : list Node.t) :
  sortedCountries ns ≡ₚ (λ kv, Row.mk kv.1 kv.2) <$> byCountry ns.
Proof. apply (sort_descending_stable Row.n). Qed.

Lemma sortedCountries_NoDup (ns : list Node.t) :
  NoDup (Row.country <$> sortedCountries ns).
Proof.
  rewrite sortedCountries_perm, byCountry_rows. apply first_seen_NoDup.
Qed.

Lemma top10_countries_NoDup (ns : list Node.t) : NoDup (top10_countries ns).
Proof.
  unfold top10_countries. rewrite fmap_take.
  eapply sublist_NoDup; [apply sortedCountries_NoDup|apply sublist_take].
Qed.

Lemma top10_countries_lookup (ns : list Node.t) (i : nat) (row : Row.t) :
  sortedCountries ns !! i = Some row → i < 10 →
  top10_countries ns !! i = Some (Row.country row).
Proof.
  intros Hrow Hi. unfold top10_countries.
  by rewrite list_lookup_fmap, lookup_take_lt, Hrow.
Qed.

Lemma top10_countries_beyond (ns : list Node.t) (i : nat) (row : Row.t) :
  sortedCountries ns !! i = Some row → 10 ≤ i →
  Row.country row ∉ top10_countries ns.
Proof.
  intros Hrow Hi Hin. unfold top10_countries in Hin.
  apply list_elem_of_lookup in Hin as [j Hj].
  rewrite list_lookup_fmap in Hj.
  destruct (take 10 (sortedCountries ns) !! j) as [row'|] eqn:Hrow';
    [|done].
  injection Hj as Hj.
  apply lookup_take_Some in Hrow' as [Hrow' Hlt].
  assert (i = j); [|lia].
  apply (NoDup_lookup _ i j (Row.country row) (sortedCountries_NoDup ns)).
  - by rewrite list_lookup_fmap, Hrow.
  - rewrite list_lookup_fmap, Hrow'. simpl. by rewrite Hj.
Qed.

Lemma top10_countries_nonempty (ns : list Node.t) (c : string) :
  c ∈ top10_countries ns → c ≠ "".
Proof.
  intros Hin. unfold top10_countries in Hin. rewrite fmap_take in Hin.
  apply elem_of_take in Hin as (j & Hin & _).
  apply list_elem_of_lookup_2 in Hin.
  rewrite sortedCountries_perm, byCountry_rows, first_seen_elem_of in Hin.
  apply list_elem_of_fmap in Hin as (d & -> & _).
  apply or_string_nonempty.
Qed.

Lemma color_call (ns : list Node.t) (i : nat) (c : string) :
  top10_countries ns !! i = Some c →
  D3.call (color ns) c = (D3.schemeTableau10 !! i, color ns).
Proof.
  intros Hc. unfold D3.call, color, D3.scaleOrdinal.
  cbn [D3.ordinal_domain D3.ordinal_range].
  rewrite first_seen_id by apply top10_countries_NoDup.
  rewrite (index_of_lookup _ i c (top10_countries_NoDup ns) Hc).
  apply lookup_lt_Some in Hc. unfold top10_countries in Hc.
  rewrite length_fmap, length_take in Hc.
  rewrite Nat.mod_small; [done|]. simpl. lia.
Qed.

Lemma fill_in_top10 (ns : list Node.t) (i : nat) (c : string) (d : Node.t) :
  top10_countries ns !! i = Some c → Node.country d = Some c →
  fill (top10 ns) (color ns) d = (D3.schemeTableau10 !! i, color ns).
Proof.
  intros Hc Hd. unfold fill. rewrite Hd.
  rewrite bool_decide_eq_true_2; [by apply color_call|].
  unfold top10. apply elem_of_list_to_set. by eapply list_elem_of_lookup_2.
Qed.

Lemma fill_outside_top10 (ns : list Node.t) (d : Node.t) :
  or_string (Node.country d) "Unknown" ∉ top10_countries ns →
  fill (top10 ns) (color ns) d = (Some FALLBACK_GRAY, color ns).
Proof.
  intros Hout. unfold fill. destruct (Node.country d) as [c|] eqn:Hc; [|done].
  rewrite bool_decide_eq_false_2; [done|].
  unfold top10. rewrite elem_of_list_to_set. intros Hin.
  destruct c as [|ch c]; [by apply (top10_countries_nonempty ns "")|].
  by apply Hout.
Qed.

(** When every node falls in the same country group there is one row. *)
Lemma byCountry_single (ns : list Node.t) (c : string) :
  ns ≠ [] →
  Forall (λ d, or_string (Node.country d) "Unknown" = c) ns →
  byCountry ns = [(c, length ns)]
  ∧ sortedCountries ns = [Row.mk c (length ns)]
  ∧ top10_countries ns = [c]
  ∧ top10 ns = {[c]}.
Proof.
  intros Hne Hall.
  assert (Hrows : byCountry ns = [(c, length ns)]).
  { pose proof (rollup_keys ns (λ v, length v)
                  (λ d, or_string (Node.country d) "Unknown")) as Hkeys.
    rewrite (first_seen_constant _ c) in Hkeys.
    - fold (byCountry ns) in Hkeys.
      assert (Hentry : ∀ k n, (k, n) ∈ byCountry ns →
                n = length (filter
                  (λ d, or_string (Node.country d) "Unknown" = k) ns)).
      { intros k n. apply rollup_length_entry. }
      destruct (byCountry ns) as [|[k n] [|? ?]]; try done.
      injection Hkeys as ->.
      rewrite (Hentry c n) by apply list_elem_of_here.
      by rewrite filter_all.
    - by destruct ns.
    - by apply Forall_fmap. }
  assert (Hsorted : sortedCountries ns = [Row.mk c (length ns)]).
  { unfold sortedCountries. by rewrite Hrows. }
  assert (Htop : top10_countries ns = [c]).
  { unfold top10_countries. by rewrite Hsorted. }
  repeat split; try done.
  unfold top10. rewrite Htop. simpl. by rewrite (right_id_L ∅ (∪)).
Qed.

Lemma fills_constant (top : gset string) (scale : D3.ordinal)
    (ds : list Node.t) (c : option string) :
  Forall (λ d, fill top scale d = (c, scale)) ds →
  fills top scale ds = (replicate (length ds) c, scale).
Proof.
  induction 1 as [|d ds Hd _ IH]; simpl; [done|]. by rewrite Hd, IH.
Qed.

(** The part of C5 that holds: nodes that all carry one and the same
    country name get the first colour of the palette. *)
Lemma shared_country_color (ns : list Node.t) (c : string) :
  ns ≠ [] → c ≠ "" →
  Forall (λ d, Node.country d = Some c) ns →
  top10 ns = {[c]}
  ∧ base.size (top10 ns) = 1
  ∧ fills (top10 ns) (color ns) ns =
      (replicate (length ns) (Some "#4e79a7"), color ns)
  ∧ Some "#4e79a7" ≠ Some FALLBACK_GRAY.
Proof.
  intros Hne Hc Hall.
  assert (Hkey : Forall (λ d, or_string (Node.country d) "Unknown" = c) ns).
  { eapply Forall_impl; [exact Hall|]. intros d ->. by destruct c. }
  destruct (byCountry_single ns c Hne Hkey) as (_ & _ & Htop & Hset).
  split; [done|]. split; [by rewrite Hset, size_singleton|].
  split; [|done].
  apply fills_constant. eapply Forall_impl; [exact Hall|].
  intros d Hd. apply (fill_in_top10 ns 0 c d); [by rewrite Htop|done].
Qed.

(** C5.  When no node has a country (missing or empty), all nodes form the
    group "Unknown": the top-10 set is the one entry "Unknown" and the
    legend shows it with the first colour of the palette, but the fill
    looks up the node's own [country] field, which is not in the set, so
    every circle is filled with the fallback gray. *)
Theorem unknown_group_gets_fallback (ns : list Node.t) :
  ns ≠ [] →
  Forall (λ d, truthy (Node.country d) = false) ns →
  byCountry ns = [("Unknown", length ns)]
  ∧ top10 ns = {["Unknown"]}
  ∧ base.size (top10 ns) = 1
  ∧ fills (top10 ns) (color ns) ns =
      (replicate (length ns) (Some FALLBACK_GRAY), color ns)
  ∧ (legend_items (color ns) (take 10 (sortedCountries ns))).1 =
      [LegendItem.mk (Some "#4e79a7")
         (String.append "Unknown"
            (String.append " ("
               (String.append (string_of_nat (length ns)) ")")))]
  ∧ Some FALLBACK_GRAY ≠ Some "#4e79a7".
Proof.
  intros Hne Hall.
  assert (Hkey :
    Forall (λ d, or_string (Node.country d) "Unknown" = "Unknown") ns).
  { eapply Forall_impl; [exact Hall|].
    intros d Hd. simpl in Hd |- *.
    by destruct (Node.country d) as [[|ch s]|]. }
  destruct (byCountry_single ns "Unknown" Hne Hkey)
    as (Hrows & Hsorted & Htop & Hset).
  split; [done|]. split; [done|].
  split; [by rewrite Hset, size_singleton|].
  split; [|split; [|done]].
  - apply fills_constant. eapply Forall_impl; [exact Hall|].
    intros d Hd. simpl in Hd. unfold fill.
    destruct (Node.country d) as [[|ch s]|]; try done.
    rewrite bool_decide_eq_false_2; [done|].
    rewrite Hset, elem_of_singleton. done.
  - rewrite Hsorted. cbn [take legend_items Row.country Row.n].
    rewrite (color_call ns 0 "Unknown") by (by rewrite Htop).
    reflexivity.
Qed.

(** On [Sample.anonymous]: both circles are gray. *)
Lemma unknown_group_gets_fallback_witness :
  (nodes Sample.anonymous ≠ []
   ∧ Forall (λ d, truthy (Node.country d) = false) (nodes Sample.anonymous))
  ∧ fills (top10 (nodes Sample.anonymous)) (color (nodes Sample.anonymous))
      (nodes Sample.anonymous) =
    ([Some FALLBACK_GRAY; Some FALLBACK_GRAY],
     color (nodes Sample.anonymous)).
Proof.
  assert (Hne : nodes Sample.anonymous ≠ []) by discriminate.
  assert (Hall : Forall (λ d, truthy (Node.country d) = false)
                   (nodes Sample.anonymous)).
  { repeat constructor. }
  split; [done|].
  exact (proj1 (proj2 (proj2 (proj2
    (unknown_group_gets_fallback (nodes Sample.anonymous) Hne Hall))))).
Defined.

(** C6.  The country rows are the groups in order of first appearance,
    each with its number of nodes; [sortedCountries] is that list sorted by
    descending count, rows of equal count keeping their order; the palette
    has ten distinct colours, none of them the fallback gray; the row at
    position [i < 10] gets the [i]-th palette colour, from the scale (as in
    the legend) and as the fill of a node that carries that country name;
    every node of a group at position 10 or later is filled with the
    fallback gray. *)
Theorem top10_colors (ns : list Node.t) :
  let rows := (λ kv, Row.mk kv.1 kv.2) <$> byCountry ns in
  Row.country <$> rows =
    D3.first_seen ((λ d, or_string (Node.country d) "Unknown") <$> ns)
  ∧ Forall (λ row,
      Row.n row =
        length (filter (λ d, or_string (Node.country d) "Unknown" =
                             Row.country row) ns)) rows
  ∧ sortedCountries ns ≡ₚ rows
  ∧ StronglySorted (λ a b, Row.n b ≤ Row.n a) (sortedCountries ns)
  ∧ (∀ k, filter (λ row, Row.n row = k) (sortedCountries ns) =
          filter (λ row, Row.n row = k) rows)
  ∧ 10 ≤ length D3.schemeTableau10
  ∧ NoDup D3.schemeTableau10
  ∧ (FALLBACK_GRAY ∉ D3.schemeTableau10)
  ∧ (∀ i row, sortedCountries ns !! i = Some row → i < 10 →
       ∃ c, D3.schemeTableau10 !! i = Some c
         ∧ c ≠ FALLBACK_GRAY
         ∧ D3.call (color ns) (Row.country row) = (Some c, color ns)
         ∧ ∀ d, Node.country d = Some (Row.country row) →
                fill (top10 ns) (color ns) d = (Some c, color ns))
  ∧ (∀ i row, sortedCountries ns !! i = Some row → 10 ≤ i →
       ∀ d, or_string (Node.country d) "Unknown" = Row.country row →
            fill (top10 ns) (color ns) d = (Some FALLBACK_GRAY, color ns)).
Proof.
  cbv zeta.
  destruct (sort_descending_stable Row.n
              ((λ kv, Row.mk kv.1 kv.2) <$> byCountry ns))
    as (Hperm & Hsorted & Hstable).
  destruct palette_facts as (Hlen & Hnd & Hgray).
  split; [apply byCountry_rows|].
  split.
  { apply Forall_fmap, Forall_forall. intros [c n] Hin. simpl.
    by apply (rollup_length_entry ns _ c n). }
  split; [done|]. split; [done|]. split; [done|].
  split; [by rewrite Hlen|]. split; [done|]. split; [done|].
  split.
  - intros i row Hrow Hi.
    pose proof (top10_countries_lookup ns i row Hrow Hi) as Hc.
    destruct (lookup_lt_is_Some_2 D3.schemeTableau10 i) as [c Hpal];
      [by rewrite Hlen|].
    exists c. split; [done|]. split.
    + intros ->. apply Hgray. by eapply list_elem_of_lookup_2.
    + rewrite <- Hpal. split; [by apply color_call|].
      intros d Hd. by apply (fill_in_top10 ns i (Row.country row)).
  - intros i row Hrow Hi d Hd. apply fill_outside_top10. rewrite Hd.
    by apply (top10_countries_beyond ns i row).
Qed.

(** On [Sample.loop] the first row is France with two nodes, and a French
    node is filled with the first palette colour. *)
Lemma top10_colors_witness :
  (sortedCountries (nodes Sample.loop) !! 0 = Some (Row.mk "FR" 2) ∧ 0 < 10)
  ∧ ∃ c, D3.schemeTableau10 !! 0 = Some c
      ∧ c ≠ FALLBACK_GRAY
      ∧ D3.call (color (nodes Sample.loop)) "FR" =
          (Some c, color (nodes Sample.loop))
      ∧ ∀ d, Node.country d = Some "FR" →
             fill (top10 (nodes Sample.loop)) (color (nodes Sample.loop)) d =
               (Some c, color (nodes Sample.loop)).
Proof.
  assert (Hrow : sortedCountries (nodes Sample.loop) !! 0 =
                   Some (Row.mk "FR" 2)) by reflexivity.
  assert (Hlt : 0 < 10) by lia.
  split; [done|].
  exact (proj1 (proj2 (proj2 (proj2 (proj2 (proj2 (proj2 (proj2 (proj2
    (top10_colors (nodes Sample.loop))))))))))
    0 (Row.mk "FR" 2) Hrow Hlt).
Defined.

(** On [Sample.tied] Germany and France both count two nodes; Germany is
    seen first and stays first. *)
Example ties_keep_first_appearance :
  sortedCountries (nodes Sample.tied) =
    [Row.mk "DE" 2; Row.mk "FR" 2; Row.mk "IT" 1].
Proof. reflexivity. Qed.

(** * Further properties of the script *)

(** ** Degrees add up *)

Lemma sum_list_with_fmap {A B : Type} (f : B → nat) (g : A → B)
    (l : list A) :
  sum_list_with f (g <$> l) = sum_list_with (λ a, f (g a)) l.
Proof. induction l as [|a l IH]; simpl; [done|]. f_equal. exact IH. Qed.

Lemma count_cons_sum (ids : list key) (e : key) (es : list key) :
  sum_list_with (λ k, length (filter (λ e', e' = k) (e :: es))) ids =
    length (filter (λ k, k = e) ids) +
    sum_list_with (λ k, length (filter (λ e', e' = k) es)) ids.
Proof.
  induction ids as [|k ids IH]; simpl; [done|].
  rewrite IH, !filter_cons.
  destruct (decide (e = k)) as [->|Hne].
  - rewrite decide_True by done. simpl. lia.
  - rewrite decide_False by congruence. lia.
Qed.

Lemma count_once (ids : list key) (e : key) :
  NoDup ids → e ∈ ids → length (filter (λ k, k = e) ids) = 1.
Proof.
  induction 1 as [|k ids Hk Hnd IH]; intros Hin.
  - by apply not_elem_of_nil in Hin.
  - rewrite filter_cons. destruct (decide (k = e)) as [->|Hne].
    + simpl. f_equal. apply filter_length_0, Forall_forall.
      intros k' Hk' ->. done.
    + apply IH. apply elem_of_cons in Hin as [->|Hin]; done.
Qed.

Lemma count_endpoints_sum (ids es : list key) :
  NoDup ids → Forall (λ e, e ∈ ids) es →
  sum_list_with (λ k, length (filter (λ e, e = k) es)) ids = length es.
Proof.
  intros Hnd. induction 1 as [|e es He _ IH].
  - clear Hnd. induction ids as [|k ids IHids]; [done|]. exact IHids.
  - rewrite count_cons_sum, IH, (count_once ids e Hnd He). done.
Qed.

Lemma endpoints_length (links : list Link.t) :
  length (endpoints links) = 2 * length links.
Proof. induction links as [|l links IH]; simpl; [done|]. rewrite IH. lia. Qed.

(** X1.  When the node ids are distinct and every link endpoint is the id of a
    node, the degrees of all nodes sum to twice the number of links. *)
Theorem degree_sum (raw : document) :
  NoDup (RawNode.id <$> raw_nodes raw) →
  Forall (λ e, e ∈ RawNode.id <$> raw_nodes raw) (endpoints (raw_links raw)) →
  sum_list_with Node.degree (nodes raw) = 2 * length (raw_links raw).
Proof.
  intros Hnd Hall. unfold nodes. rewrite sum_list_with_fmap.
  cbn [with_degree Node.degree].
  rewrite <- endpoints_length,
    <- (count_endpoints_sum (RawNode.id <$> raw_nodes raw)
          (endpoints (raw_links raw)) Hnd Hall).
  rewrite sum_list_with_fmap. clear Hnd Hall.
  induction (raw_nodes raw) as [|d ds IH]; simpl; [done|].
  by rewrite degree_get, IH.
Qed.

(** On [Sample.loop]: two links, degrees 3 + 1 + 0. *)
Lemma degree_sum_witness :
  (NoDup (RawNode.id <$> raw_nodes Sample.loop)
   ∧ Forall (λ e, e ∈ RawNode.id <$> raw_nodes Sample.loop)
       (endpoints (raw_links Sample.loop)))
  ∧ sum_list_with Node.degree (nodes Sample.loop) = 4.
Proof.
  assert (Hnd : NoDup (RawNode.id <$> raw_nodes Sample.loop)).
  { by apply (bool_decide_unpack _). }
  assert (Hall : Forall (λ e, e ∈ RawNode.id <$> raw_nodes Sample.loop)
                   (endpoints (raw_links Sample.loop))).
  { by apply (bool_decide_unpack _). }
  split; [done|].
  exact (degree_sum Sample.loop Hnd Hall).
Defined.

(** ** Country groups partition the nodes *)

Section GroupSizes.
Context {A K : Type} `{EqDecision K}.
Implicit Types (m : list (K * list A)) (values : list A) (keyof : A → K).

Lemma group_add_sizes m k a :
  sum_list_with (λ kg, length kg.2) (D3.group_add k a m) =
    S (sum_list_with (λ kg, length kg.2) m).
Proof.
  induction m as [|[k' g] m IH]; [done|].
  cbn [D3.group_add]. destruct (decide (k = k')) as [->|Hne]; simpl.
  - rewrite length_app. simpl. lia.
  - rewrite IH. lia.
Qed.

Lemma group_from_sizes m values keyof :
  sum_list_with (λ kg, length kg.2) (D3.group_from m values keyof) =
    sum_list_with (λ kg, length kg.2) m + length values.
Proof.
  revert m. induction values as [|a values IH]; intros m; simpl; [lia|].
  unfold D3.group_from in *. simpl. rewrite IH, group_add_sizes. lia.
Qed.

Lemma rollup_sizes values keyof :
  sum_list_with snd (D3.rollup values (λ v, length v) keyof) = length values.
Proof.
  unfold D3.rollup, D3.group. rewrite sum_list_with_fmap.
  apply (group_from_sizes [] values keyof).
Qed.
End GroupSizes.

(** X2.  The country counts add up to the number of nodes, before and after
    sorting, and no row has the count zero. *)
Theorem country_counts_partition (ns : list Node.t) :
  sum_list_with snd (byCountry ns) = length ns
  ∧ sum_list_with Row.n (sortedCountries ns) = length ns
  ∧ Forall (λ row, 1 ≤ Row.n row) (sortedCountries ns)
  ∧ Forall (λ row, ∃ d, d ∈ ns
              ∧ or_string (Node.country d) "Unknown" = Row.country row)
      (sortedCountries ns).
Proof.
  assert (Hsum : sum_list_with snd (byCountry ns) = length ns).
  { apply rollup_sizes. }
  assert (Hmember : ∀ row, row ∈ sortedCountries ns →
            ∃ d, d ∈ ns
                 ∧ or_string (Node.country d) "Unknown" = Row.country row).
  { intros row Hrow.
    assert (Hc : Row.country row ∈ Row.country <$> sortedCountries ns).
    { apply list_elem_of_fmap. by exists row. }
    rewrite sortedCountries_perm, byCountry_rows, first_seen_elem_of in Hc.
    apply list_elem_of_fmap in Hc as (d & Hd & Hin). by exists d. }
  split; [done|]. split; [|split].
  - rewrite sortedCountries_perm, sum_list_with_fmap. exact Hsum.
  - apply Forall_forall. intros row Hrow.
    destruct (Hmember row Hrow) as (d & Hd & Hkey).
    rewrite sortedCountries_perm in Hrow.
    apply list_elem_of_fmap in Hrow as ([c n] & -> & Hin). simpl in *.
    rewrite (rollup_length_entry ns _ c n Hin).
    assert (Hd' : d ∈ filter
              (λ a, or_string (Node.country a) "Unknown" = c) ns).
    { by apply list_elem_of_filter. }
    destruct (filter _ ns); [by apply not_elem_of_nil in Hd'|simpl; lia].
  - apply Forall_forall. exact Hmember.
Qed.

(** ** The top-10 set, the colour scale and the legend *)

Lemma fill_defined (ns : list Node.t) (d : Node.t) :
  ∃ c, fill (top10 ns) (color ns) d = (Some c, color ns)
       ∧ (c = FALLBACK_GRAY ∨ c ∈ D3.schemeTableau10).
Proof.
  unfold fill. destruct (Node.country d) as [c|]; [|by eauto].
  destruct (bool_decide (c ∈ top10 ns)) eqn:Htop; [|by eauto].
  apply bool_decide_eq_true_1 in Htop. unfold top10 in Htop.
  rewrite elem_of_list_to_set in Htop.
  apply list_elem_of_lookup in Htop as [i Hi].
  rewrite (color_call ns i c Hi).
  destruct (lookup_lt_is_Some_2 D3.schemeTableau10 i) as [p Hp].
  { apply lookup_lt_Some in Hi. unfold top10_countries in Hi.
    rewrite length_fmap, length_take in Hi. simpl. lia. }
  exists p. rewrite Hp. split; [done|]. right.
  by eapply list_elem_of_lookup_2.
Qed.

Lemma fills_defined (ns ds : list Node.t) :
  (fills (top10 ns) (color ns) ds).2 = color ns
  ∧ length (fills (top10 ns) (color ns) ds).1 = length ds
  ∧ Forall (λ f, ∃ c, f = Some c
                      ∧ (c = FALLBACK_GRAY ∨ c ∈ D3.schemeTableau10))
      (fills (top10 ns) (color ns) ds).1.
Proof.
  induction ds as [|d ds (IHscale & IHlen & IHall)]; [by repeat split|].
  cbn [fills]. destruct (fill_defined ns d) as (c & -> & Hc).
  destruct (fills (top10 ns) (color ns) ds) as [fs scale].
  simpl in *. subst scale. split; [done|]. split; [by rewrite IHlen|].
  constructor; [by exists c|done].
Qed.

Lemma legend_items_calls (scale : D3.ordinal) (rows : list Row.t)
    (colours : list (option string)) :
  Forall2 (λ row c, D3.call scale (Row.country row) = (c, scale))
    rows colours →
  (legend_items scale rows).2 = scale
  ∧ LegendItem.swatch <$> (legend_items scale rows).1 = colours
  ∧ length (legend_items scale rows).1 = length rows.
Proof.
  induction 1 as [|row c rows colours Hcall _ (IHscale & IHsw & IHlen)];
    [done|].
  cbn [legend_items]. rewrite Hcall.
  destruct (legend_items scale rows) as [items scale'].
  cbn [fst snd] in *. subst scale'. split; [done|]. split.
  - rewrite fmap_cons. cbn [LegendItem.swatch]. by rewrite IHsw.
  - cbn [length]. by rewrite IHlen.
Qed.

Lemma top10_rows_calls (ns : list Node.t) :
  Forall2 (λ row c, D3.call (color ns) (Row.country row) = (c, color ns))
    (take 10 (sortedCountries ns))
    (take (length (take 10 (sortedCountries ns)))
       (Some <$> D3.schemeTableau10)).
Proof.
  apply Forall2_same_length_lookup_2.
  - rewrite !length_take, length_fmap.
    change (length D3.schemeTableau10) with 10. lia.
  - intros i row c Hrow Hc.
    apply lookup_take_Some in Hrow as [Hrow Hi].
    apply lookup_take_Some in Hc as [Hc _].
    rewrite (color_call ns i (Row.country row)).
    + rewrite list_lookup_fmap in Hc.
      destruct (D3.schemeTableau10 !! i); [|done]. by injection Hc as <-.
    + by apply top10_countries_lookup.
Qed.

(** X3.  The top-10 set has as many entries as there are country groups, capped
    at ten, and so has the legend; the [i]-th legend swatch is the [i]-th
    palette colour. *)
Theorem top10_size (ns : list Node.t) :
  base.size (top10 ns) = min 10 (length (byCountry ns))
  ∧ base.size (top10 ns) ≤ 10
  ∧ length (legend_items (color ns) (take 10 (sortedCountries ns))).1 =
      base.size (top10 ns)
  ∧ LegendItem.swatch <$>
      (legend_items (color ns) (take 10 (sortedCountries ns))).1 =
      take (base.size (top10 ns)) (Some <$> D3.schemeTableau10)
  ∧ (∀ c, c ∈ top10 ns ↔ c ∈ top10_countries ns).
Proof.
  assert (Hlen : length (take 10 (sortedCountries ns)) =
                 min 10 (length (byCountry ns))).
  { rewrite length_take, sortedCountries_perm, length_fmap. done. }
  assert (Hsize : base.size (top10 ns) = min 10 (length (byCountry ns))).
  { unfold top10.
    rewrite size_list_to_set by apply top10_countries_NoDup.
    unfold top10_countries. by rewrite length_fmap. }
  destruct (legend_items_calls _ _ _ (top10_rows_calls ns))
    as (_ & Hsw & Hitems).
  split; [done|]. split; [lia|]. split; [lia|].
  split; [by rewrite Hsw, Hsize, Hlen|].
  intros c. unfold top10. apply elem_of_list_to_set.
Qed.

(** X4.  Drawing the fills and the legend never extends the colour scale: it is
    only ever called on a country of its domain.  Every circle gets a
    defined fill, a palette colour or the fallback gray. *)
Theorem scale_never_extended (ns : list Node.t) :
  D3.ordinal_domain (color ns) = top10_countries ns
  ∧ (fills (top10 ns) (color ns) ns).2 = color ns
  ∧ (legend_items (fills (top10 ns) (color ns) ns).2
       (take 10 (sortedCountries ns))).2 = color ns
  ∧ length (fills (top10 ns) (color ns) ns).1 = length ns
  ∧ Forall (λ f, ∃ c, f = Some c
                      ∧ (c = FALLBACK_GRAY ∨ c ∈ D3.schemeTableau10))
      (fills (top10 ns) (color ns) ns).1.
Proof.
  destruct (fills_defined ns ns) as (Hscale & Hlen & Hall).
  split.
  { unfold color, D3.scaleOrdinal. simpl.
    apply first_seen_id, top10_countries_NoDup. }
  split; [done|]. split; [|done].
  rewrite Hscale.
  by destruct (legend_items_calls _ _ _ (top10_rows_calls ns)) as (-> & _).
Qed.

(** ** Radii and stroke widths *)

Lemma extent_from {A : Type} (accessor : A → nat) (values : list A)
    (lo hi : nat) :
  ∃ lo' hi',
    fold_left
      (λ acc a,
         let value := accessor a in
         match acc with
         | None => Some (value, value)
         | Some (lo, hi) =>
             Some (if (value <? lo)%nat then value else lo,
                   if (hi <? value)%nat then value else hi)
         end)
      values (Some (lo, hi)) = Some (lo', hi')
    ∧ lo' ≤ lo ∧ hi ≤ hi'
    ∧ Forall (λ a, lo' ≤ accessor a ≤ hi') values
    ∧ (lo' = lo ∨ ∃ a, a ∈ values ∧ accessor a = lo')
    ∧ (hi' = hi ∨ ∃ a, a ∈ values ∧ accessor a = hi').
Proof.
  revert lo hi. induction values as [|a values IH]; intros lo hi.
  - exists lo, hi. repeat split; auto.
  - cbn [fold_left].
    destruct (IH (if (accessor a <? lo)%nat then accessor a else lo)
                 (if (hi <? accessor a)%nat then accessor a else hi))
      as (lo' & hi' & Hfold & Hlo & Hhi & Hall & Hmin & Hmax).
    exists lo', hi'. split; [exact Hfold|].
    destruct (Nat.ltb_spec (accessor a) lo) as [Hlt|Hge],
             (Nat.ltb_spec hi (accessor a)) as [Hlt'|Hge'].
    all: repeat split; try lia.
    all: try (constructor; [lia|exact Hall]).
    all: try (destruct Hmin as [->|(b & Hb & Hfb)];
              [by (left + (right; exists a; split; [left|]))
              |right; exists b; split; [by right|done]]).
    all: try (destruct Hmax as [->|(b & Hb & Hfb)];
              [by (left + (right; exists a; split; [left|]))
              |right; exists b; split; [by right|done]]).
Qed.

(** [d3.extent] returns the least and the greatest value, both taken by
    some element, and is undefined only on no values. *)
Lemma extent_spec {A : Type} (accessor : A → nat) (values : list A) :
  match D3.extent values accessor with
  | None => values = []
  | Some (lo, hi) =>
      Forall (λ a, lo ≤ accessor a ≤ hi) values
      ∧ (∃ a, a ∈ values ∧ accessor a = lo)
      ∧ (∃ a, a ∈ values ∧ accessor a = hi)
  end.
Proof.
  destruct values as [|a values]; [done|].
  destruct (extent_from accessor values (accessor a) (accessor a))
    as (lo & hi & Hfold & Hlo & Hhi & Hall & Hmin & Hmax).
  replace (D3.extent (a :: values) accessor) with (Some (lo, hi))
    by (by rewrite <- Hfold).
  split; [constructor; [lia|exact Hall]|]. split.
  - destruct Hmin as [->|(b & Hb & Hfb)].
    + exists a. split; [left|done].
    + exists b. split; [by right|done].
  - destruct Hmax as [->|(b & Hb & Hfb)].
    + exists a. split; [left|done].
    + exists b. split; [by right|done].
Qed.

Lemma transformSqrt_INR (n : nat) : D3.transformSqrt (INR n) = sqrt (INR n).
Proof.
  unfold D3.transformSqrt. pose proof (pos_INR n).
  destruct (Rlt_dec _ _); [lra|done].
Qed.

Lemma scaleSqrt_value (lo hi x : nat) :
  lo < hi →
  D3.scaleSqrt (Some (lo, hi)) RADIUS_RANGE x =
    Some (3 + 9 * ((sqrt (INR x) - sqrt (INR lo))
                   / (sqrt (INR hi) - sqrt (INR lo))))%R.
Proof.
  intros Hlt. unfold D3.scaleSqrt, D3.bimap, RADIUS_RANGE.
  rewrite !transformSqrt_INR.
  assert (Hs : (sqrt (INR lo) < sqrt (INR hi))%R).
  { apply sqrt_lt_1; [apply pos_INR..|]. by apply lt_INR. }
  destruct (Rlt_dec _ _) as [Hbad|_]; [lra|].
  unfold D3.normalize. destruct (Req_dec_T _ _) as [Hbad|_]; [lra|].
  unfold D3.interpolateNumber. f_equal.
  set (t := ((sqrt (INR x) - sqrt (INR lo))
             / (sqrt (INR hi) - sqrt (INR lo)))%R).
  lra.
Qed.

Lemma ratio_bounds (a a' b : R) :
  (0 < b)%R → (0 <= a <= a')%R → (a' <= b)%R →
  (0 <= a / b <= a' / b)%R ∧ (a' / b <= 1)%R.
Proof.
  intros Hb [Ha Haa'] Ha'b.
  assert (Hinv : (0 < / b)%R) by (by apply Rinv_0_lt_compat).
  unfold Rdiv. repeat split.
  - by apply Rmult_le_pos; [|apply Rlt_le].
  - by apply Rmult_le_compat_r; [apply Rlt_le|].
  - rewrite <- (Rinv_r b) by lra.
    by apply Rmult_le_compat_r; [apply Rlt_le|].
Qed.

(** X6.  Every node is drawn with a radius between 3 and 12.  When the degrees
    are not all equal, the nodes of least degree get 3, the nodes of
    greatest degree get 12, both exist, and the radius grows with the
    degree in between. *)
Theorem radius_range (ns : list Node.t) :
  Forall (λ n, ∃ r, size ns (Node.degree n) = Some r ∧ (3 <= r <= 12)%R) ns
  ∧ (∀ lo hi, D3.extent ns Node.degree = Some (lo, hi) → lo < hi →
       size ns lo = Some 3%R
       ∧ size ns hi = Some 12%R
       ∧ (∃ n, n ∈ ns ∧ Node.degree n = lo)
       ∧ (∃ n, n ∈ ns ∧ Node.degree n = hi)
       ∧ ∀ x y, lo ≤ x → x ≤ y → y ≤ hi →
           ∃ rx ry, size ns x = Some rx ∧ size ns y = Some ry
                    ∧ (3 <= rx <= ry)%R ∧ (ry <= 12)%R).
Proof.
  pose proof (extent_spec Node.degree ns) as Hext. unfold size.
  destruct (D3.extent ns Node.degree) as [[lo hi]|] eqn:Hextent.
  - destruct Hext as (Hall & Hmin & Hmax).
    assert (Hmono : lo < hi → ∀ x y, lo ≤ x → x ≤ y → y ≤ hi →
      ∃ rx ry, D3.scaleSqrt (Some (lo, hi)) RADIUS_RANGE x = Some rx
               ∧ D3.scaleSqrt (Some (lo, hi)) RADIUS_RANGE y = Some ry
               ∧ (3 <= rx <= ry)%R ∧ (ry <= 12)%R).
    { intros Hlt x y Hx Hxy Hy. rewrite !scaleSqrt_value by done.
      eexists _, _. split; [done|]. split; [done|].
      assert (Hs : (sqrt (INR lo) < sqrt (INR hi))%R).
      { apply sqrt_lt_1; [apply pos_INR..|]. by apply lt_INR. }
      assert (Hsx : (sqrt (INR lo) <= sqrt (INR x))%R).
      { apply sqrt_le_1; [apply pos_INR..|]. by apply le_INR. }
      assert (Hsxy : (sqrt (INR x) <= sqrt (INR y))%R).
      { apply sqrt_le_1; [apply pos_INR..|]. by apply le_INR. }
      assert (Hsy : (sqrt (INR y) <= sqrt (INR hi))%R).
      { apply sqrt_le_1; [apply pos_INR..|]. by apply le_INR. }
      destruct (ratio_bounds (sqrt (INR x) - sqrt (INR lo))
                  (sqrt (INR y) - sqrt (INR lo))
                  (sqrt (INR hi) - sqrt (INR lo))) as [[H0 Hle] H1];
        [lra..|].
      lra. }
    split.
    + apply Forall_forall. intros n Hn.
      pose proof (proj1 (Forall_forall _ _) Hall n Hn) as [Hlo Hhi].
      destruct (decide (lo = hi)) as [<-|Hne].
      * rewrite scaleSqrt_degenerate. eexists. split; [done|]. lra.
      * destruct (Hmono ltac:(lia) (Node.degree n) (Node.degree n))
          as (rx & ry & Hrx & _ & Hb & Hb'); [lia..|].
        exists rx. split; [done|]. lra.
    + intros lo' hi' [= <- <-] Hlt.
      split; [|split; [|split; [done|split; [done|by apply Hmono]]]].
      * rewrite scaleSqrt_value by done. f_equal.
        unfold Rdiv. rewrite Rminus_diag. lra.
      * rewrite scaleSqrt_value by done. f_equal.
        assert (Hs : (sqrt (INR lo) < sqrt (INR hi))%R).
        { apply sqrt_lt_1; [apply pos_INR..|]. by apply lt_INR. }
        unfold Rdiv. rewrite Rinv_r by lra. lra.
  - subst ns. split; [constructor|]. intros lo hi Hbad. discriminate.
Qed.

(** On [Sample.loop] the degrees range from 0 to 3: 0 is drawn with
    radius 3 and 3 with radius 12. *)
Lemma radius_range_witness :
  (D3.extent (nodes Sample.loop) Node.degree = Some (0, 3) ∧ 0 < 3)
  ∧ size (nodes Sample.loop) 0 = Some 3%R
  ∧ size (nodes Sample.loop) 3 = Some 12%R.
Proof.
  assert (Hext : D3.extent (nodes Sample.loop) Node.degree = Some (0, 3))
    by reflexivity.
  assert (Hlt : 0 < 3) by lia.
  split; [done|].
  destruct (proj2 (radius_range (nodes Sample.loop)) 0 3 Hext Hlt)
    as (Hlo & Hhi & _).
  split; [exact Hlo|exact Hhi].
Defined.

(** X7.  Every line is at least half a pixel wide.  A link without weight, and
    also a link of weight 0, is drawn like a link of weight 1, at 0.6; a
    weight of at least 5/6 is drawn at 0.6 times the weight, and a smaller
    non-zero weight, negative ones included, at the minimum 0.5. *)
Theorem stroke_width_bounds (raw : document) (dom : Dom.t) (v : View.t) :
  View.lines (body raw dom v).1 = stroke_width <$> raw_links raw
  ∧ Forall (λ w, (1 / 2 <= w)%R) (View.lines (body raw dom v).1)
  ∧ (∀ s t, stroke_width (Link.mk s t None) = (6 / 10)%R)
  ∧ (∀ s t, stroke_width (Link.mk s t (Some 0%R)) = (6 / 10)%R)
  ∧ (∀ s t w, (5 / 6 <= w)%R →
       stroke_width (Link.mk s t (Some w)) = (w * (6 / 10))%R)
  ∧ (∀ s t w, w ≠ 0%R → (w <= 5 / 6)%R →
       stroke_width (Link.mk s t (Some w)) = (1 / 2)%R).
Proof.
  assert (Hlines : View.lines (body raw dom v).1 =
                   stroke_width <$> raw_links raw).
  { unfold body. destruct (fills _ _ _) as [fs scale].
    by destruct (createSimulation _ _ _). }
  split; [done|]. split.
  { rewrite Hlines. apply Forall_fmap, Forall_forall. intros l _. simpl.
    unfold stroke_width, Math_max, Rmax.
    destruct (Rle_dec _ _); lra. }
  unfold stroke_width, Math_max, Rmax. cbn [Link.weight].
  repeat split; intros s t.
  - destruct (Rle_dec _ _); lra.
  - destruct (Req_dec_T 0 0) as [_|Hne]; [|done].
    destruct (Rle_dec _ _); lra.
  - intros w Hw. destruct (Req_dec_T w 0) as [->|_]; [lra|].
    destruct (Rle_dec _ _); lra.
  - intros w Hne Hw. destruct (Req_dec_T w 0) as [->|_]; [done|].
    destruct (Rle_dec _ _); lra.
Qed.

(** ** Links to unknown nodes, empty input and rendering again *)




(** X9.  Rendering replaces the labels, the view box, the lines and the
    circles whatever the page showed before, and does not touch the
    tooltip or its listener; so rendering again gives the same page and
    the same outcome. *)
Theorem render_again (raw : document) (dom : Dom.t) (v : View.t) :
  (∀ v', View.tooltip v' = View.tooltip v →
         View.click_tooltip v' = View.click_tooltip v →
         View.legend v' = View.legend v →
         body raw dom v' = body raw dom v)
  ∧ body raw dom (body raw dom v).1 = body raw dom v
  ∧ View.tooltip (body raw dom v).1 = View.tooltip v
  ∧ View.click_tooltip (body raw dom v).1 = View.click_tooltip v
  ∧ View.viewBox (body raw dom v).1 = Some (0, 0, WIDTH dom, HEIGHT dom)%Z
  ∧ View.labels (body raw dom v).1 =
      Some (Dom.charge dom, Dom.collide dom, Dom.linkStrength dom).
Proof.
  assert (Hindep : ∀ v', View.tooltip v' = View.tooltip v →
            View.click_tooltip v' = View.click_tooltip v →
            (View.legend v' = View.legend v
             ∨ ∃ sim, createSimulation (nodes raw) (raw_links raw) dom =
                        Normal sim) →
            body raw dom v' = body raw dom v).
  { intros v' Htt Hclick Hlegend. unfold body.
    destruct (fills _ _ _) as [fs scale].
    destruct (createSimulation _ _ _) as [sim|e];
      unfold View.set_legend, View.set_chart, View.set_viewBox,
        updateSliderLabels, View.set_labels;
      cbn [View.labels View.viewBox View.lines View.circles View.tooltip
           View.click_tooltip View.legend].
    - by rewrite Htt, Hclick.
    - destruct Hlegend as [Hlegend|[sim Hsim]]; [|done].
      by rewrite Htt, Hclick, Hlegend. }
  assert (Hfields : View.tooltip (body raw dom v).1 = View.tooltip v
            ∧ View.click_tooltip (body raw dom v).1 = View.click_tooltip v
            ∧ View.viewBox (body raw dom v).1 =
                Some (0, 0, WIDTH dom, HEIGHT dom)%Z
            ∧ View.labels (body raw dom v).1 =
                Some (Dom.charge dom, Dom.collide dom, Dom.linkStrength dom)).
  { unfold body. destruct (fills _ _ _) as [fs scale].
    by destruct (createSimulation _ _ _). }
  destruct Hfields as (Htt & Hclick & Hbox & Hlabels).
  split; [intros v' H1 H2 H3; apply Hindep; auto|].
  split; [|done].
  apply Hindep; [done..|].
  destruct (createSimulation (nodes raw) (raw_links raw) dom)
    as [sim|e] eqn:Hsim; [right; by exists sim|left].
  unfold body. rewrite Hsim. by destruct (fills _ _ _).
Qed.

(** Rendering over a page that differs only in its chart gives the same
    result. *)
Lemma render_again_witness :
  (View.tooltip Sample.one_circle = View.tooltip Sample.page
   ∧ View.click_tooltip Sample.one_circle = View.click_tooltip Sample.page
   ∧ View.legend Sample.one_circle = View.legend Sample.page)
  ∧ body Sample.loop Sample.dom Sample.one_circle =
      body Sample.loop Sample.dom Sample.page.
Proof.
  split; [by repeat split|].
  exact (proj1 (render_again Sample.loop Sample.dom Sample.page)
           Sample.one_circle eq_refl eq_refl eq_refl).
Defined.

(** X10.  A document without nodes and links renders an empty chart and a legend
    that has only its heading; the simulation starts with no bodies, the
    top-10 set is empty and the radius scale is undefined everywhere. *)
Theorem empty_document (raw : document) (dom : Dom.t) (v : View.t) :
  raw_nodes raw = [] → raw_links raw = [] →
  (∃ sim, (body raw dom v).2 = Normal sim ∧ Sim.bodies sim = [])
  ∧ View.circles (body raw dom v).1 = []
  ∧ View.lines (body raw dom v).1 = []
  ∧ View.legend (body raw dom v).1 = Some ("Top 10 Countries", [])
  ∧ top10 (nodes raw) = ∅
  ∧ (∀ x, size (nodes raw) x = None).
Proof.
  intros Hnodes Hlinks. unfold body, nodes. rewrite Hnodes, Hlinks.
  simpl. repeat split. by eexists.
Qed.

Lemma empty_document_witness :
  (raw_nodes {| raw_nodes := []; raw_links := [] |} = []
   ∧ raw_links {| raw_nodes := []; raw_links := [] |} = [])
  ∧ View.legend
      (body {| raw_nodes := []; raw_links := [] |} Sample.dom Sample.page).1
    = Some ("Top 10 Countries", []).
Proof.
  split; [done|].
  exact (proj1 (proj2 (proj2 (proj2
    (empty_document {| raw_nodes := []; raw_links := [] |} Sample.dom
       Sample.page eq_refl eq_refl))))).
Defined.

(** ** Hover *)

Lemma idToCountry_unique (ns : list Node.t) (i : nat) (n : Node.t) :
  NoDup (Node.id <$> ns) → ns !! i = Some n →
  idToCountry ns (Node.id n) = Node.country n.
Proof.
  intros Hnd Hn. unfold idToCountry.
  destruct (list_find (λ n', Node.id n' = Node.id n) ns) as [[j n']|]
    eqn:Hfind.
  - apply list_find_Some in Hfind as (Hj & Hid & _).
    assert (i = j); [|by simplify_eq].
    apply (NoDup_lookup _ i j (Node.id n) Hnd).
    + by rewrite list_lookup_fmap, Hn.
    + rewrite list_lookup_fmap, Hj. simpl. by rewrite Hid.
  - apply list_find_None in Hfind.
    apply list_elem_of_lookup_2 in Hn.
    by destruct (proj1 (Forall_forall _ _) Hfind n Hn).
Qed.

(** X11.  Hovering a node dims exactly the circles whose [country] field differs
    from the hovered node's, never the hovered circle itself.  With
    distinct node ids, a line between two nodes stays undimmed exactly when
    both have the hovered node's country, so the ends of an undimmed line
    are undimmed circles.  Leaving the node clears every [dim]. *)
Theorem hover_dims (ns : list Node.t) (links : list Link.t) (d : Node.t) :
  let dim := on_mouseover ns links d in
  length (Dim.circles dim) = length ns
  ∧ length (Dim.lines dim) = length links
  ∧ (∀ i, ns !! i = Some d → Dim.circles dim !! i = Some false)
  ∧ (∀ i n, ns !! i = Some n →
       (Dim.circles dim !! i = Some false ↔ Node.country n = Node.country d))
  ∧ (NoDup (Node.id <$> ns) →
     ∀ k l i j a b,
       links !! k = Some l → ns !! i = Some a → ns !! j = Some b →
       Link.source l = Node.id a → Link.target l = Node.id b →
       (Dim.lines dim !! k = Some false ↔
          Node.country a = Node.country d ∧ Node.country b = Node.country d)
       ∧ (Dim.lines dim !! k = Some false →
          Dim.circles dim !! i = Some false
          ∧ Dim.circles dim !! j = Some false))
  ∧ Forall (λ c, c = false) (Dim.circles (on_mouseleave ns links))
  ∧ Forall (λ c, c = false) (Dim.lines (on_mouseleave ns links))
  ∧ length (Dim.circles (on_mouseleave ns links)) = length ns
  ∧ length (Dim.lines (on_mouseleave ns links)) = length links.
Proof.
  cbv zeta. unfold on_mouseover, on_mouseleave.
  cbn [Dim.circles Dim.lines].
  assert (Hcircle : ∀ i n, ns !! i = Some n →
    ((λ n, bool_decide (Node.country n ≠ Node.country d)) <$> ns) !! i =
      Some false ↔ Node.country n = Node.country d).
  { intros i n Hn. rewrite list_lookup_fmap, Hn. simpl. split.
    - intros [= Hdim]. apply bool_decide_eq_false_1 in Hdim.
      by destruct (decide (Node.country n = Node.country d)).
    - intros Heq. f_equal. apply bool_decide_eq_false_2. by intros Hne. }
  split; [apply length_fmap|]. split; [apply length_fmap|].
  split; [intros i Hi; by apply (Hcircle i d)|].
  split; [exact Hcircle|].
  split.
  - intros Hnd k l i j a b Hl Ha Hb Hsrc Htgt.
    assert (Hline : ((λ l,
        let c1 := idToCountry ns (Link.source l) in
        let c2 := idToCountry ns (Link.target l) in
        negb (bool_decide (c1 = Node.country d)
              && bool_decide (c2 = Node.country d))) <$> links) !! k =
        Some false ↔
        Node.country a = Node.country d ∧ Node.country b = Node.country d).
    { rewrite list_lookup_fmap, Hl. cbn [fmap option_fmap option_map].
      rewrite Hsrc, Htgt, (idToCountry_unique ns i a Hnd Ha),
        (idToCountry_unique ns j b Hnd Hb).
      split.
      - intros [= Hdim]. apply negb_false_iff, andb_true_iff in Hdim.
        destruct Hdim as [H1 H2].
        by apply bool_decide_eq_true_1 in H1, H2.
      - intros [H1 H2]. f_equal. apply negb_false_iff, andb_true_iff.
        by split; apply bool_decide_eq_true_2. }
    split; [exact Hline|].
    intros Hdim. apply Hline in Hdim as [H1 H2].
    split; [by apply (Hcircle i a)|by apply (Hcircle j b)].
  - repeat split; try apply length_fmap.
    + apply Forall_fmap, Forall_forall. by intros.
    + apply Forall_fmap, Forall_forall. by intros.
Qed.

(** On [Sample.loop], hovering the French author [a]: the link from [a] to
    itself stays undimmed, and so does the circle of [a]. *)
Lemma hover_dims_witness :
  (NoDup (Node.id <$> nodes Sample.loop)
   ∧ raw_links Sample.loop !! 0 = Some (Sample.coauthor "a" "a")
   ∧ nodes Sample.loop !! 0 =
       Some (Node.mk (KStr "a") None None (Some "FR") 3))
  ∧ (Dim.lines
       (on_mouseover (nodes Sample.loop) (raw_links Sample.loop)
          (Node.mk (KStr "a") None None (Some "FR") 3)) !! 0 = Some false ↔
     Some "FR" = Some "FR" ∧ Some "FR" = Some "FR").
Proof.
  assert (Hnd : NoDup (Node.id <$> nodes Sample.loop)).
  { by apply (bool_decide_unpack _). }
  split; [by repeat split|].
  exact (proj1 (proj1 (proj2 (proj2 (proj2 (proj2
    (hover_dims (nodes Sample.loop) (raw_links Sample.loop)
       (Node.mk (KStr "a") None None (Some "FR") 3))))))
    Hnd 0 (Sample.coauthor "a" "a") 0 0
    (Node.mk (KStr "a") None None (Some "FR") 3)
    (Node.mk (KStr "a") None None (Some "FR") 3)
    eq_refl eq_refl eq_refl eq_refl eq_refl)).
Defined.

(** ** The tooltip and its listener over a session *)

Lemma capturing_on_body (e : Event.t) (v : View.t) :
  tooltip_consistent v → Body ∈ Event.path e →
  View.click_tooltip (capturing e v) = None
  ∧ Tooltip.hidden (View.tooltip (capturing e v)) = true.
Proof.
  unfold tooltip_consistent, capturing. intros Hv Hbody.
  destruct (View.click_tooltip v) as [event|] eqn:Hlistener; [|done].
  destruct Hv as [_ Hdone]. rewrite bool_decide_eq_true_2 by done.
  unfold click_tooltip_listener, Event.composedPath. by rewrite Hdone.
Qed.

Lemma capturing_off_body (e : Event.t) (v : View.t) :
  Body ∉ Event.path e → capturing e v = v.
Proof.
  intros Hbody. unfold capturing.
  destruct (View.click_tooltip v); [|done].
  by rewrite bool_decide_eq_false_2.
Qed.

Lemma dispatched_consistent (v : View.t) :
  match View.click_tooltip v with
  | Some _ => Tooltip.hidden (View.tooltip v) = false
  | None => Tooltip.hidden (View.tooltip v) = true
  end →
  tooltip_consistent (dispatched v).
Proof.
  unfold tooltip_consistent, dispatched. cbn [View.click_tooltip
    View.set_click_tooltip View.tooltip].
  by destruct (View.click_tooltip v).
Qed.

Lemma click_consistent (t : target) (x y : R) (ns : list Node.t)
    (v : View.t) :
  tooltip_consistent v → tooltip_consistent (click t x y ns v).
Proof.
  intros Hv. unfold click. apply dispatched_consistent.
  set (e := Event.mk (path_of t) true x y).
  destruct (decide (Body ∈ Event.path e)) as [Hbody|Hbody].
  - destruct (capturing_on_body e v Hv Hbody) as [Hnone Hhidden].
    unfold at_target.
    destruct t as [i| | |]; try destruct (ns !! i) as [d|];
      by rewrite ?Hnone.
  - rewrite (capturing_off_body e v Hbody).
    destruct t as [i| | |];
      try (exfalso; apply Hbody; cbn; by repeat constructor).
    unfold at_target, tooltip_consistent in *.
    by destruct (View.click_tooltip v) as [event|]; [destruct Hv|].
Qed.

(** X12.  Through any sequence of clicks, from a page whose tooltip is hidden and
    has no listener, the dismiss listener is on the body exactly while the
    tooltip is visible: no listener is left behind and the tooltip never
    stays without a way to dismiss it. *)
Theorem tooltip_listener_invariant (ts : list (target * (R * R)))
    (ns : list Node.t) (v : View.t) :
  tooltip_consistent v →
  tooltip_consistent (clicks ts ns v)
  ∧ (is_Some (View.click_tooltip (clicks ts ns v)) ↔
     Tooltip.hidden (View.tooltip (clicks ts ns v)) = false).
Proof.
  intros Hv.
  assert (Hinv : tooltip_consistent (clicks ts ns v)).
  { unfold clicks. revert v Hv.
    induction ts as [|[t [x y]] ts IH]; intros v Hv; [done|].
    cbn [fold_left]. apply IH. by apply click_consistent. }
  split; [done|]. unfold tooltip_consistent in Hinv.
  destruct (View.click_tooltip (clicks ts ns v)) as [event|].
  - destruct Hinv as [Hshown _]. split; [done|by eexists].
  - rewrite Hinv. split; [by intros [? ?]|done].
Qed.

(** On the sample page: a click on node [a], then one on the tooltip. *)
Lemma tooltip_listener_invariant_witness :
  tooltip_consistent Sample.page
  ∧ tooltip_consistent
      (clicks [(OnCircle 0, (100, 100)%R); (OnTooltip, (5, 5)%R)]
         (nodes Sample.loop) Sample.page).
Proof.
  assert (Hpage : tooltip_consistent Sample.page) by reflexivity.
  split; [done|].
  exact (proj1 (tooltip_listener_invariant
    [(OnCircle 0, (100, 100)%R); (OnTooltip, (5, 5)%R)]
    (nodes Sample.loop) Sample.page Hpage)).
Defined.

(** ** What a tick changes and what it leaves *)






(** ** Drag gestures and the other events of a session *)

Lemma alter_only_pins (f : Body.t → Body.t) (i : nat) (bs : list Body.t) :
  (∀ d, pin None None (f d) = pin None None d) →
  alter (pin None None) i (alter f i bs) = alter (pin None None) i bs
  ∧ pin None None <$> alter f i bs = pin None None <$> bs.
Proof.
  intros Hf. split.
  - rewrite list_alter_alter_eq. apply list_alter_ext; [|done].
    intros d _. apply Hf.
  - rewrite (list_fmap_alter (pin None None) f (λ d, d)).
    + by apply list_alter_id.
    + apply Forall_forall. intros d _. apply Hf.
Qed.




Lemma drag_frame (g : gesture) (active : nat) (sim : Sim.t) :
  pin None None <$> Sim.bodies (drag g (active, sim)).2 =
    pin None None <$> Sim.bodies sim
  ∧ Sim.forces (drag g (active, sim)).2 = Sim.forces sim
  ∧ Sim.alpha (drag g (active, sim)).2 = Sim.alpha sim.
Proof.
  destruct g as [i x y|i x y|i x y], active as [|rest];
    cbn [drag fst snd]; try done.
  - rewrite dragstarted_bodies. unfold dragstarted. cbn.
    split; [|done]. by apply alter_only_pins.
  - rewrite dragstarted_bodies. unfold dragstarted. cbn.
    split; [|done]. by apply alter_only_pins.
  - unfold dragged. cbn. split; [|done]. by apply alter_only_pins.
  - rewrite dragended_bodies. unfold dragended.
    destruct (_ =? _)%nat; cbn; (split; [|done]); by apply alter_only_pins.
Qed.

Lemma handle_frame (st : nat * Sim.t * View.t) (e : ui_event) :
  pin None None <$> Sim.bodies (handle st e).1.2 =
    pin None None <$> Sim.bodies st.1.2.
Proof.
  destruct st as [[active sim] v].
  destruct e as [g|dom|dom|dom|dom]; cbn [handle fst snd]; try done.
  destruct (drag g (active, sim)) as [active' sim'] eqn:Hdrag.
  cbn [fst snd]. pose proof (drag_frame g active sim) as [Hb _].
  by rewrite Hdrag in Hb.
Qed.

(** X16.  Gestures, slider inputs and resizes never move a node: through any
    sequence of them the positions and velocities of all nodes are as
    before, and only pins can differ.  Nodes move in ticks only. *)
Theorem ui_events_never_move (es : list ui_event)
    (st : nat * Sim.t * View.t) :
  let st' := handle_all es st in
  pin None None <$> Sim.bodies st'.1.2 = pin None None <$> Sim.bodies st.1.2
  ∧ length (Sim.bodies st'.1.2) = length (Sim.bodies st.1.2)
  ∧ Body.x <$> Sim.bodies st'.1.2 = Body.x <$> Sim.bodies st.1.2
  ∧ Body.y <$> Sim.bodies st'.1.2 = Body.y <$> Sim.bodies st.1.2
  ∧ Body.vx <$> Sim.bodies st'.1.2 = Body.vx <$> Sim.bodies st.1.2
  ∧ Body.vy <$> Sim.bodies st'.1.2 = Body.vy <$> Sim.bodies st.1.2.
Proof.
  cbv zeta.
  assert (Hpins : pin None None <$> Sim.bodies (handle_all es st).1.2 =
                  pin None None <$> Sim.bodies st.1.2).
  { unfold handle_all. revert st.
    induction es as [|e es IH]; intros st; [done|].
    cbn [fold_left]. rewrite IH. apply handle_frame. }
  split; [exact Hpins|]. split.
  { apply (f_equal length) in Hpins. by rewrite !length_fmap in Hpins. }
  repeat split.
  - apply (f_equal (fmap Body.x)) in Hpins.
    by rewrite <- !list_fmap_compose in Hpins.
  - apply (f_equal (fmap Body.y)) in Hpins.
    by rewrite <- !list_fmap_compose in Hpins.
  - apply (f_equal (fmap Body.vx)) in Hpins.
    by rewrite <- !list_fmap_compose in Hpins.
  - apply (f_equal (fmap Body.vy)) in Hpins.
    by rewrite <- !list_fmap_compose in Hpins.
Qed.

(** ** Sliders, labels and forces *)

Lemma handle_labels (st : nat * Sim.t * View.t) (e : ui_event) :
  labels_match st.1.2 st.2 → labels_match (handle st e).1.2 (handle st e).2.
Proof.
  destruct st as [[active sim] v]. cbn [fst snd].
  intros (c & co & l & x & y & Hlabels & Hc & Hco & Hl & Hce).
  destruct e as [g|dom|dom|dom|dom]; cbn [handle fst snd].
  - destruct (drag g (active, sim)) as [active' sim'] eqn:Hdrag.
    pose proof (drag_frame g active sim) as (_ & Hforces & _).
    rewrite Hdrag in Hforces. cbn [fst snd] in *.
    exists c, co, l, x, y. by rewrite Hforces.
  - exists (Dom.charge dom), co, l, x, y.
    unfold on_charge_input, set_label. cbn [fst snd]. rewrite Hlabels.
    cbn [Sim.forces Sim.restart Sim.set_alpha Sim.force View.labels
         View.set_labels].
    split; [done|]. split; [apply lookup_insert_eq|].
    by rewrite !lookup_insert_ne by done.
  - exists c, (Dom.collide dom), l, x, y.
    unfold on_collide_input, set_label. cbn [fst snd]. rewrite Hlabels.
    cbn [Sim.forces Sim.restart Sim.set_alpha Sim.force View.labels
         View.set_labels].
    split; [done|]. rewrite lookup_insert_eq.
    by rewrite !lookup_insert_ne by done.
  - exists c, co, (Dom.linkStrength dom), x, y.
    unfold on_linkStrength_input, set_label. cbn [fst snd]. rewrite Hlabels.
    cbn [Sim.forces Sim.restart Sim.set_alpha Sim.force_strength View.labels
         View.set_labels].
    split; [done|]. rewrite lookup_alter_eq, Hl.
    by rewrite !lookup_alter_ne by done.
  - exists c, co, l, (IZR (WIDTH dom) / 2)%R, (IZR (HEIGHT dom) / 2)%R.
    unfold on_resize. cbn [fst snd].
    cbn [Sim.forces Sim.restart Sim.set_alpha Sim.force View.labels
         View.set_viewBox].
    split; [done|]. rewrite lookup_insert_eq.
    by rewrite !lookup_insert_ne by done.
Qed.

(** X17.  Once the body has run to its end, each label shows the parameter of
    its force, and the four forces are installed; gestures, slider inputs
    and resizes keep it so, in any order. *)
Theorem labels_show_forces :
  (∀ raw dom v sim, (body raw dom v).2 = Normal sim →
     labels_match sim (body raw dom v).1)
  ∧ (∀ es st, labels_match st.1.2 st.2 →
       labels_match (handle_all es st).1.2 (handle_all es st).2).
Proof.
  split.
  - intros raw dom v sim Hsim. unfold body in *.
    destruct (fills _ _ _) as [fs scale].
    unfold createSimulation in *.
    destruct (list_find _ _) as [[i e]|]; [done|].
    cbn [fst snd] in *. injection Hsim as <-.
    exists (Dom.charge dom), (Dom.collide dom), (Dom.linkStrength dom),
      (IZR (WIDTH dom) / 2)%R, (IZR (HEIGHT dom) / 2)%R.
    cbn [Sim.forces].
    split; [done|]. by rewrite !lookup_insert.
  - intros es. unfold handle_all.
    induction es as [|e es IH]; intros st Hst; [done|].
    cbn [fold_left]. apply IH. by apply handle_labels.
Qed.

(** After rendering [Sample.loop] the labels show the forces. *)
Lemma labels_show_forces_witness :
  ∃ sim, (body Sample.loop Sample.dom Sample.page).2 = Normal sim
    ∧ labels_match sim (body Sample.loop Sample.dom Sample.page).1.
Proof.
  eexists. split; [reflexivity|].
  apply (proj1 labels_show_forces Sample.loop Sample.dom Sample.page).
  reflexivity.
Defined.

(** X18.  A slider input shows the slider's value in its label, gives it to its
    force and restarts the simulation at alpha 0.6; the other labels and
    forces, the energy target, and all nodes with their pins are left as
    they are. *)
Theorem slider_input_effect (dom : Dom.t) (sim : Sim.t) (v : View.t)
    (a b c s : R) :
  View.labels v = Some (a, b, c) →
  Sim.forces sim !! "link" = Some (Force.Link s) →
  let charge := on_charge_input dom (sim, v) in
  let collide := on_collide_input dom (sim, v) in
  let link := on_linkStrength_input dom (sim, v) in
  (View.labels charge.2 = Some (Dom.charge dom, b, c)
   ∧ Sim.forces charge.1 !! "charge" = Some (Force.ManyBody (Dom.charge dom))
   ∧ ∀ name, name ≠ "charge" →
       Sim.forces charge.1 !! name = Sim.forces sim !! name)
  ∧ (View.labels collide.2 = Some (a, Dom.collide dom, c)
     ∧ Sim.forces collide.1 !! "collide" =
         Some (Force.Collide (Dom.collide dom))
     ∧ ∀ name, name ≠ "collide" →
         Sim.forces collide.1 !! name = Sim.forces sim !! name)
  ∧ (View.labels link.2 = Some (a, b, Dom.linkStrength dom)
     ∧ Sim.forces link.1 !! "link" = Some (Force.Link (Dom.linkStrength dom))
     ∧ ∀ name, name ≠ "link" →
         Sim.forces link.1 !! name = Sim.forces sim !! name)
  ∧ Forall (λ st : Sim.t * View.t,
      Sim.alpha st.1 = (6 / 10)%R
      ∧ Sim.running st.1 = true
      ∧ Sim.alphaTarget st.1 = Sim.alphaTarget sim
      ∧ Sim.bodies st.1 = Sim.bodies sim
      ∧ View.circles st.2 = View.circles v
      ∧ View.tooltip st.2 = View.tooltip v)
      [charge; collide; link].
Proof.
  intros Hlabels Hlink. cbv zeta.
  unfold on_charge_input, on_collide_input, on_linkStrength_input, set_label.
  cbn [fst snd]. rewrite Hlabels.
  cbn [Sim.forces Sim.restart Sim.set_alpha Sim.force Sim.force_strength
       View.labels View.set_labels].
  split; [|split; [|split]].
  - split; [done|]. split; [apply lookup_insert_eq|].
    intros name Hne. by apply lookup_insert_ne.
  - split; [done|]. split; [apply lookup_insert_eq|].
    intros name Hne. by apply lookup_insert_ne.
  - split; [done|]. split; [by rewrite lookup_alter_eq, Hlink|].
    intros name Hne. by apply lookup_alter_ne.
  - by repeat constructor.
Qed.

(** With labels 1, 2, 3 and a link force installed, a charge input shows
    the slider's value in the first label. *)
Lemma slider_input_effect_witness :
  (View.labels (View.set_labels (1, 2, 3)%R Sample.page) =
     Some (1, 2, 3)%R
   ∧ (<["link" := Force.Link 3]> (Sim.forces Sample.at_origin)
        : gmap string Force.t) !! "link" = Some (Force.Link 3))
  ∧ View.labels
      (on_charge_input Sample.dom
         (Sim.force "link" (Force.Link 3) Sample.at_origin,
          View.set_labels (1, 2, 3)%R Sample.page)).2 =
    Some (Dom.charge Sample.dom, 2, 3)%R.
Proof.
  assert (Hlink : Sim.forces (Sim.force "link" (Force.Link 3)
                    Sample.at_origin) !! "link" = Some (Force.Link 3)).
  { apply lookup_insert_eq. }
  split; [split; [done|exact Hlink]|].
  exact (proj1 (proj1
    (slider_input_effect Sample.dom
       (Sim.force "link" (Force.Link 3) Sample.at_origin)
       (View.set_labels (1, 2, 3)%R Sample.page) 1 2 3 3 eq_refl Hlink))).
Defined.

(** ** The last clicked node and the largest countries *)



Lemma sorted_lookup {A : Type} (R : A → A → Prop) (l : list A) (i j : nat)
    (a b : A) :
  StronglySorted R l → l !! i = Some a → l !! j = Some b → i < j → R a b.
Proof.
  intros Hsorted. revert i j.
  induction Hsorted as [|c l _ IH Hc]; intros i j Ha Hb Hij.
  - by rewrite lookup_nil in Ha.
  - destruct j as [|j]; [lia|]. destruct i as [|i]; simpl in *.
    + injection Ha as ->.
      apply (proj1 (Forall_forall _ _) Hc). by eapply list_elem_of_lookup_2.
    + apply (IH i j); [done..|lia].
Qed.

(** X5.  The top-10 set holds the largest country groups: no country group
    outside it has more nodes than a country inside it. *)
Theorem top10_are_largest (ns : list Node.t) (c c' : string) :
  c ∈ top10 ns → c' ∉ top10 ns →
  c' ∈ (λ d, or_string (Node.country d) "Unknown") <$> ns →
  length (filter (λ d, or_string (Node.country d) "Unknown" = c') ns) ≤
  length (filter (λ d, or_string (Node.country d) "Unknown" = c) ns).
Proof.
  intros Hin Hout Hgroup.
  destruct (sort_descending_stable Row.n
              ((λ kv, Row.mk kv.1 kv.2) <$> byCountry ns))
    as (Hperm & Hsorted & _).
  fold (sortedCountries ns) in Hperm, Hsorted.
  assert (Hcount : ∀ row, row ∈ sortedCountries ns →
            Row.n row =
              length (filter (λ d, or_string (Node.country d) "Unknown" =
                                   Row.country row) ns)).
  { intros row Hrow. rewrite Hperm in Hrow.
    apply list_elem_of_fmap in Hrow as ([k n] & -> & Hkn). simpl.
    by apply (rollup_length_entry ns _ k n). }
  unfold top10 in Hin, Hout. rewrite elem_of_list_to_set in Hin, Hout.
  assert (Hin' := Hin). unfold top10_countries in Hin'.
  apply list_elem_of_fmap in Hin' as (row & -> & Hrow).
  apply elem_of_take in Hrow as (i & Hrow & Hi).
  assert (Hc' : c' ∈ Row.country <$> sortedCountries ns).
  { by rewrite sortedCountries_perm, byCountry_rows, first_seen_elem_of. }
  apply list_elem_of_fmap in Hc' as (row' & -> & Hrow').
  apply list_elem_of_lookup in Hrow' as [j Hrow'].
  assert (Hj : 10 ≤ j).
  { destruct (decide (10 ≤ j)) as [|Hlt]; [done|]. exfalso. apply Hout.
    eapply list_elem_of_lookup_2.
    apply (top10_countries_lookup ns j row' Hrow'). lia. }
  rewrite <- (Hcount row), <- (Hcount row')
    by (by eapply list_elem_of_lookup_2).
  apply (sorted_lookup (λ a b, Row.n b ≤ Row.n a) (sortedCountries ns) i j);
    [done..|lia].
Qed.

(** On [Sample.eleven] Austria is in the top-10 set and Sweden, the
    eleventh country, is not; both have one node. *)
Lemma top10_are_largest_witness :
  ("AT" ∈ top10 (nodes Sample.eleven)
   ∧ ("SE" ∉ top10 (nodes Sample.eleven))
   ∧ "SE" ∈ (λ d, or_string (Node.country d) "Unknown")
              <$> nodes Sample.eleven)
  ∧ length (filter (λ d, or_string (Node.country d) "Unknown" = "SE")
              (nodes Sample.eleven)) ≤
    length (filter (λ d, or_string (Node.country d) "Unknown" = "AT")
              (nodes Sample.eleven)).
Proof.
  assert (Hin : "AT" ∈ top10 (nodes Sample.eleven)).
  { unfold top10. apply elem_of_list_to_set.
    by apply (bool_decide_unpack _). }
  assert (Hout : "SE" ∉ top10 (nodes Sample.eleven)).
  { unfold top10. rewrite elem_of_list_to_set.
    by apply (bool_decide_unpack _). }
  assert (Hgroup : "SE" ∈ (λ d, or_string (Node.country d) "Unknown")
                            <$> nodes Sample.eleven).
  { by apply (bool_decide_unpack _). }
  split; [done|].
  exact (top10_are_largest (nodes Sample.eleven) "AT" "SE" Hin Hout Hgroup).
Defined.
